(** * GCAM configuration ensemble generator: model and verification

    Shallow embedding of [functions.py]: the scenario parameters, the
    SSP component extractor, the base template manager (working on
    mutable [xml.etree.ElementTree] elements, modelled as a store of
    element objects addressed by reference) and the configuration
    generator with its batch drivers.

    Python strings are modelled as [string]; a character is a code
    point below 256.  Logging calls have no effect on any value the
    program computes and are left out. *)

From stdpp Require Import base option list strings gmap.
From Stdlib Require Import ZArith DecimalString Permutation.
From Stdlib Require Import Ascii.
From Stdlib Require String.

Local Open Scope string_scope.
Local Open Scope list_scope.
Local Open Scope nat_scope.

(* ====================================================================== *)
(** * Python string operations used by the program *)
(* ====================================================================== *)

Module PyStr.

(** [str.isspace] on one code point below 256: TAB..CR, FS..US, space,
    NEL and NBSP. *)
Definition isspace (c : ascii) : bool :=
  let n := nat_of_ascii c in
  (Nat.leb 9 n && Nat.leb n 13) || (Nat.leb 28 n && Nat.leb n 32)
  || Nat.eqb n 133 || Nat.eqb n 160.

(** [str.lower] on one code point below 256: A..Z and the Latin-1 capitals
    À..Þ other than the multiplication sign. *)
Definition lower_char (c : ascii) : ascii :=
  let n := nat_of_ascii c in
  if (Nat.leb 65 n && Nat.leb n 90)
     || (Nat.leb 192 n && Nat.leb n 222 && negb (Nat.eqb n 215))
  then ascii_of_nat (n + 32) else c.

(** [str.upper] restricted to the letters a..z. *)
Definition upper_char (c : ascii) : ascii :=
  let n := nat_of_ascii c in
  if Nat.leb 97 n && Nat.leb n 122 then ascii_of_nat (n - 32) else c.

Fixpoint lower (s : string) : string :=
  match s with
  | EmptyString => EmptyString
  | String c r => String (lower_char c) (lower r)
  end.

Fixpoint lstrip (s : string) : string :=
  match s with
  | EmptyString => EmptyString
  | String c r => if isspace c then lstrip r else s
  end.

Fixpoint rev_onto (s acc : string) : string :=
  match s with
  | EmptyString => acc
  | String c r => rev_onto r (String c acc)
  end.

Definition rev (s : string) : string := rev_onto s EmptyString.

Definition rstrip (s : string) : string := rev (lstrip (rev s)).

(** [s.strip()] *)
Definition strip (s : string) : string := rstrip (lstrip s).

(** [s.startswith(p)] *)
Definition startswith (s p : string) : bool := String.prefix p s.

(** [s.replace(old, new)] for a non-empty [old]: occurrences are replaced
    from left to right and do not overlap.  [skip] counts the characters
    of an occurrence already replaced that are still to be passed over. *)
Fixpoint replace_from (old new : string) (skip : nat) (s : string) : string :=
  match s with
  | EmptyString => EmptyString
  | String c r =>
      match skip with
      | S k => replace_from old new k r
      | O =>
          if String.prefix old s
          then new +:+ replace_from old new (String.length old - 1) r
          else String c (replace_from old new 0 r)
      end
  end.

Definition replace (s old new : string) : string := replace_from old new 0 s.

(** [f"{n}"] for an [int]: decimal digits, a minus sign for negatives, no
    padding. *)
Definition str_of_int (n : Z) : string := NilZero.string_of_int (Z.to_int n).

(** Truth value of an optional string: [None] and [""] are false. *)
Definition truthy (o : option string) : bool :=
  match o with
  | Some (String _ _) => true
  | _ => false
  end.

End PyStr.

(* ====================================================================== *)
(** * ScenarioParameters *)
(* ====================================================================== *)

Record ScenarioParameters := {
  ssps : list string;
  rcps : list string;
  pr_adoption_rates : list Z;
  technology_levels : list string;
  supply_capacities : list string;
  allocation_regulations : list string
}.

(** The field defaults of the dataclass. *)
Definition default_parameters : ScenarioParameters := {|
  ssps := ["SSP1"; "SSP2"; "SSP3"; "SSP4"; "SSP5"];
  rcps := ["2p6"; "4p5"; "6p0"; "8p5"];
  pr_adoption_rates := [0; 25; 50; 75; 100]%Z;
  technology_levels := ["Basic"; "Advanced"];
  supply_capacities := ["Low"; "Medium"; "High"];
  allocation_regulations := ["Market-driven"; "Regulatory"]
|}.

Definition total_scenarios (p : ScenarioParameters) : nat :=
  length (ssps p) * length (rcps p) * length (pr_adoption_rates p)
  * length (technology_levels p) * length (supply_capacities p)
  * length (allocation_regulations p).

(** One element of the Cartesian product, in the order
    [(ssp, rcp, pr_rate, tech, supply, allocation)]. *)
Record scenario := {
  sc_ssp : string;
  sc_rcp : string;
  sc_pr_rate : Z;
  sc_tech : string;
  sc_supply : string;
  sc_allocation : string
}.

Definition scenario_eqb (a b : scenario) : bool :=
  String.eqb (sc_ssp a) (sc_ssp b) && String.eqb (sc_rcp a) (sc_rcp b)
  && Z.eqb (sc_pr_rate a) (sc_pr_rate b) && String.eqb (sc_tech a) (sc_tech b)
  && String.eqb (sc_supply a) (sc_supply b)
  && String.eqb (sc_allocation a) (sc_allocation b).

(* ====================================================================== *)
(** * BaseTemplateManager._get_spa_code *)
(* ====================================================================== *)

(** The two dict literals of [_get_spa_code]. *)
Definition spa_mapping_6p0 : gmap string string :=
  <["SSP1" := "1"]> (<["SSP2" := "235"]> (<["SSP3" := "235"]>
  (<["SSP4" := "4"]> (<["SSP5" := "0"]> ∅)))).

Definition spa_mapping_standard : gmap string string :=
  <["SSP1" := "1"]> (<["SSP2" := "23"]> (<["SSP3" := "23"]>
  (<["SSP4" := "4"]> (<["SSP5" := "5"]> ∅)))).

Definition _get_spa_code (ssp rcp : string) : string :=
  let spa_mapping :=
    if String.eqb rcp "6p0" then spa_mapping_6p0 else spa_mapping_standard in
  default "0" (spa_mapping !! ssp).

(* ====================================================================== *)
(** * GCAMConfigurationGenerator.generate_scenario_name *)
(* ====================================================================== *)

(** [None] stands for the [IndexError] that [supply[0]] raises on the
    empty string. *)
Definition generate_scenario_name
    (ssp rcp : string) (pr_rate : Z) (tech supply allocation : string)
    : option string :=
  let tech_short := if String.eqb tech "Advanced" then "Tech" else "Basic" in
  match supply with
  | EmptyString => None
  | String c _ =>
      let supply_short := String c EmptyString in
      let alloc_short :=
        if String.eqb allocation "Regulatory" then "Reg" else "Mkt" in
      Some (ssp +:+ "_" +:+ rcp +:+ "_" +:+ tech_short +:+ "_"
            +:+ supply_short +:+ "_" +:+ alloc_short
            +:+ "_PR" +:+ PyStr.str_of_int pr_rate)
  end.

Definition scenario_name (sc : scenario) : option string :=
  generate_scenario_name (sc_ssp sc) (sc_rcp sc) (sc_pr_rate sc)
    (sc_tech sc) (sc_supply sc) (sc_allocation sc).

(** The naming scheme as the specification words it: the supply initial
    is the first character of the supply value turned to upper case. *)
Definition spec_scenario_name
    (ssp rcp : string) (pr_rate : Z) (tech supply allocation : string)
    : string :=
  let tech_short := if String.eqb tech "Advanced" then "Tech" else "Basic" in
  let supply_initial :=
    match supply with
    | EmptyString => EmptyString
    | String c _ => String (PyStr.upper_char c) EmptyString
    end in
  let alloc_short :=
    if String.eqb allocation "Regulatory" then "Reg" else "Mkt" in
  ssp +:+ "_" +:+ rcp +:+ "_" +:+ tech_short +:+ "_" +:+ supply_initial
  +:+ "_" +:+ alloc_short +:+ "_PR" +:+ PyStr.str_of_int pr_rate.

(* ====================================================================== *)
(** * ElementTree documents *)
(* ====================================================================== *)

(** The tag of an element is a string, or one of the two factory functions
    [ET.Comment] and [ET.ProcessingInstruction] that mark special nodes. *)
Inductive tag :=
  | Tag (name : string)
  | CommentTag
  | PITag.

(** A document as a value: what a parser returns and what a serializer
    reads.  The attribute dict keeps insertion order. *)
#[local] Unset Elimination Schemes.
Inductive tree :=
  | Node (tg : tag) (attrib : list (string * string))
         (text tail : option string) (children : list tree).
#[local] Set Elimination Schemes.

Definition tree_tag (t : tree) : tag := let 'Node tg _ _ _ _ := t in tg.
Definition tree_attrib (t : tree) := let 'Node _ a _ _ _ := t in a.
Definition tree_text (t : tree) := let 'Node _ _ x _ _ := t in x.
Definition tree_tail (t : tree) := let 'Node _ _ _ x _ := t in x.
Definition tree_children (t : tree) := let 'Node _ _ _ _ c := t in c.

Fixpoint tree_size (t : tree) : nat :=
  let 'Node _ _ _ _ cs := t in S (list_sum (map tree_size cs)).

(** [tag == name] for a string [name]. *)
Definition tag_is (t : tag) (name : string) : bool :=
  match t with
  | Tag n => String.eqb n name
  | _ => false
  end.

(** [attrib.get(key)] *)
Fixpoint attrib_get (a : list (string * string)) (key : string) : option string :=
  match a with
  | [] => None
  | (k, v) :: r => if String.eqb k key then Some v else attrib_get r key
  end.

(** The test of the three update loops:
    [element.tag == "Value" and element.get("name") == key]. *)
Definition is_value_named (tg : tag) (a : list (string * string)) (key : string) : bool :=
  tag_is tg "Value" &&
  match attrib_get a "name" with
  | Some n => String.eqb n key
  | None => false
  end.

(** ** Elements as mutable objects

    An element object lives in a store and is known by its reference; its
    children are references.  The store is a list, a reference is an index,
    and a new object takes the next index. *)

Abbreviation loc := nat (only parsing).

Record element := Element {
  el_tag : tag;
  el_attrib : list (string * string);
  el_text : option string;
  el_tail : option string;
  el_children : list loc
}.

Abbreviation store := (list element) (only parsing).

Definition alloc (h : store) (e : element) : store * loc := (h ++ [e], length h).

(** First reference in [cs] whose element has tag [name]. *)
Fixpoint find_child (h : store) (cs : list loc) (name : string) : option loc :=
  match cs with
  | [] => None
  | c :: r =>
      match h !! c with
      | Some e => if tag_is (el_tag e) name then Some c else find_child h r name
      | None => find_child h r name
      end
  end.

(** [root.find(name)] for a plain tag name: the first direct child with
    that tag. *)
Definition find (h : store) (root : loc) (name : string) : option loc :=
  match h !! root with
  | Some e => find_child h (el_children e) name
  | None => None
  end.

(** [element.text = v] *)
Definition set_text (h : store) (l : loc) (v : string) : store :=
  match h !! l with
  | Some e =>
      <[l := Element (el_tag e) (el_attrib e) (Some v) (el_tail e) (el_children e)]> h
  | None => h
  end.

(** The loop shared by the three field updates: the first child that is a
    [Value] element named [key] gets the text [v], then the loop breaks. *)
Fixpoint set_first_value (h : store) (cs : list loc) (key v : string) : store :=
  match cs with
  | [] => h
  | c :: r =>
      match h !! c with
      | Some e =>
          if is_value_named (el_tag e) (el_attrib e) key
          then set_text h c v
          else set_first_value h r key v
      | None => set_first_value h r key v
      end
  end.

(** [section.append(child)] *)
Definition append_child (h : store) (section child : loc) : store :=
  match h !! section with
  | Some e =>
      <[section := Element (el_tag e) (el_attrib e) (el_text e) (el_tail e)
                     (el_children e ++ [child])]> h
  | None => h
  end.

(** Copies of the children, left to right, each made by [copy]. *)
Fixpoint copy_all (copy : store → loc → option (store * loc))
    (cs : list loc) (h : store) : option (store * list loc) :=
  match cs with
  | [] => Some (h, [])
  | c :: r =>
      match copy h c with
      | None => None
      | Some (h1, c') =>
          match copy_all copy r h1 with
          | None => None
          | Some (h2, r') => Some (h2, c' :: r')
          end
      end
  end.

(** [copy.deepcopy] of an element: a new object with the same tag,
    attributes, text and tail whose children are deep copies of the
    children.  [fuel] bounds the depth of the recursion; [None] is the
    [RecursionError] of a structure that is deeper.  The memo table of
    [copy.deepcopy] matters only for an object that is reached twice; a
    parsed document has none, and the theorems ask this of the template. *)
Fixpoint deepcopy (fuel : nat) (h : store) (l : loc) : option (store * loc) :=
  match fuel with
  | O => None
  | S fuel' =>
      match h !! l with
      | None => None
      | Some e =>
          match copy_all (deepcopy fuel') (el_children e) h with
          | None => None
          | Some (h1, cs') =>
              Some (alloc h1 (Element (el_tag e) (el_attrib e) (el_text e)
                                (el_tail e) cs'))
          end
      end
  end.

(** The document below a reference, as a serializer walks it. *)
Fixpoint reify (fuel : nat) (h : store) (l : loc) : option tree :=
  match fuel with
  | O => None
  | S fuel' =>
      match h !! l with
      | None => None
      | Some e =>
          match mapM (reify fuel' h) (el_children e) with
          | None => None
          | Some cs =>
              Some (Node (el_tag e) (el_attrib e) (el_text e) (el_tail e) cs)
          end
      end
  end.

(** Building the objects of a parsed document, children first. *)
Definition alloc_all (alloc_one : tree → store → store * loc)
    : list tree → store → store * list loc :=
  fix go (ts : list tree) (h : store) : store * list loc :=
    match ts with
    | [] => (h, [])
    | t :: r =>
        let '(h1, l) := alloc_one t h in
        let '(h2, ls) := go r h1 in
        (h2, l :: ls)
    end.

Fixpoint alloc_tree (t : tree) (h : store) : store * loc :=
  let 'Node tg a tx tl cs := t in
  let '(h1, ls) := alloc_all alloc_tree cs h in
  alloc h1 (Element tg a tx tl ls).

(** The references that a [for element in section] loop visits. *)
Definition children_of (h : store) (l : loc) : list loc :=
  match h !! l with
  | Some e => el_children e
  | None => []
  end.

(* ====================================================================== *)
(** * SSPComponentExtractor *)
(* ====================================================================== *)

(** What [os.path.exists] and [ET.parse] make of a path: no such file, a
    file that is not well-formed XML ([ET.ParseError]), a file that cannot
    be read (any other exception), or a parsed document. *)
Inductive source_file :=
  | Absent
  | Malformed
  | Unreadable
  | Parsed (root : tree).

Definition endswith (s p : string) : bool :=
  String.prefix (PyStr.rev p) (PyStr.rev s).

(** [os.path.join(a, b)] on a POSIX system. *)
Definition os_path_join (a b : string) : string :=
  if PyStr.startswith b "/" then b
  else if String.eqb a "" || endswith a "/" then a +:+ b
  else a +:+ "/" +:+ b.

(** [root.findall(".//Value")] ranges over the elements below the root in
    document order. *)
Fixpoint descendants (t : tree) : list tree :=
  let 'Node _ _ _ _ cs := t in flat_map (fun c => c :: descendants c) cs.

(** The first loop of [extract_ssp_components]. *)
Definition value_entries (root : tree) : list (string * string) :=
  flat_map
    (fun value_elem =>
       if tag_is (tree_tag value_elem) "Value" then
         let name := attrib_get (tree_attrib value_elem) "name" in
         let path := tree_text value_elem in
         if PyStr.truthy name && PyStr.truthy path
         then match name, path with
              | Some n, Some p => [(n, PyStr.strip p)]
              | _, _ => []
              end
         else []
       else [])
    (descendants root).

(** The second loop: the comments directly below the root.  A comment
    whose text is [None] makes [elem.text.strip()] raise, here [None]. *)
Fixpoint comment_entries (cs : list tree) : option (list (string * string)) :=
  match cs with
  | [] => Some []
  | elem :: r =>
      match tree_tag elem with
      | CommentTag =>
          match tree_text elem with
          | None => None
          | Some tx =>
              let comment_text := PyStr.strip tx in
              match comment_entries r with
              | None => None
              | Some es =>
                  Some (("COMMENT_" +:+
                         PyStr.replace
                           (PyStr.replace (PyStr.lower comment_text) " " "_")
                           "-" "_",
                         "<!-- " +:+ comment_text +:+ " -->") :: es)
              end
          end
      | _ => comment_entries r
      end
  end.

(** The body of [extract_ssp_components], without the cache in front of
    it.  Every failure ends in the empty list. *)
Definition extract_ssp_components
    (xml_source : string → source_file) (ssp_files_directory ssp : string)
    : list (string * string) :=
  let ssp_file_path := os_path_join ssp_files_directory (ssp +:+ "_config.xml") in
  match xml_source ssp_file_path with
  | Absent => []
  | Malformed => []
  | Unreadable => []
  | Parsed root =>
      match comment_entries (tree_children root) with
      | None => []
      | Some comments => value_entries root ++ comments
      end
  end.

(** [lru_cache(maxsize=10)]: the most recently used key comes first; a hit
    moves its key to the front, a miss computes, stores, and drops what
    falls beyond ten entries. *)
Fixpoint cache_lookup {V} (k : string) (c : list (string * V)) : option V :=
  match c with
  | [] => None
  | (k', v) :: r => if String.eqb k' k then Some v else cache_lookup k r
  end.

Fixpoint cache_remove {V} (k : string) (c : list (string * V)) : list (string * V) :=
  match c with
  | [] => []
  | (k', v) :: r => if String.eqb k' k then r else (k', v) :: cache_remove k r
  end.

Definition lru_call {V} (maxsize : nat) (f : string → V) (k : string)
    (c : list (string * V)) : list (string * V) * V :=
  match cache_lookup k c with
  | Some v => ((k, v) :: cache_remove k c, v)
  | None => let v := f k in (take maxsize ((k, v) :: c), v)
  end.

(* ====================================================================== *)
(** * BaseTemplateManager *)
(* ====================================================================== *)

Definition _update_scenario_name (h : store) (root : loc) (scenario_name : string)
    : store :=
  match find h root "Strings" with
  | Some strings_section =>
      set_first_value h (children_of h strings_section) "scenarioName" scenario_name
  | None => h
  end.

Definition _update_policy_target (h : store) (root : loc) (rcp ssp : string)
    : store :=
  match find h root "Files" with
  | Some files_section =>
      let spa_code := _get_spa_code ssp rcp in
      let policy_file :=
        "../input/policy/policy_target_" +:+ rcp +:+ "_spa" +:+ spa_code +:+ ".xml" in
      set_first_value h (children_of h files_section) "policy-target-file" policy_file
  | None => h
  end.

Definition _update_database_location (h : store) (root : loc) (scenario_name : string)
    : store :=
  match find h root "Files" with
  | None => h
  | Some files_section =>
      set_first_value h (children_of h files_section) "xmldb-location"
        ("../output/db_" +:+ scenario_name)
  end.

(** [copy.deepcopy(self.template_root)] followed by the three updates.  The
    copy may recurse as deep as the store has objects, which is enough for
    every structure without a cycle. *)
Definition create_scenario_config (h : store) (template_root : loc)
    (scenario_name rcp ssp : string) : option (store * loc) :=
  match deepcopy (length h) h template_root with
  | None => None
  | Some (h1, scenario_root) =>
      let h2 := _update_scenario_name h1 scenario_root scenario_name in
      let h3 := _update_policy_target h2 scenario_root rcp ssp in
      let h4 := _update_database_location h3 scenario_root scenario_name in
      Some (h4, scenario_root)
  end.

(** The element that one [(name, path)] pair becomes: [ET.Comment] of the
    re-wrapped text, or a [Value] sub-element. *)
Definition component_element (name path : string) : element :=
  if PyStr.startswith name "COMMENT_" && PyStr.startswith path "<!--" then
    let comment_text :=
      PyStr.strip (PyStr.replace (PyStr.replace path "<!--" "") "-->" "") in
    Element CommentTag [] (Some (" " +:+ comment_text +:+ " ")) None []
  else
    Element (Tag "Value") [("name", name)] (Some path) None [].

Fixpoint append_components (h : store) (scenario_section : loc)
    (components : list (string * string)) : store :=
  match components with
  | [] => h
  | (name, path) :: r =>
      let '(h1, c) := alloc h (component_element name path) in
      append_components (append_child h1 scenario_section c) scenario_section r
  end.

Definition append_ssp_components (h : store) (root : loc)
    (components : list (string * string)) : store :=
  match find h root "ScenarioComponents" with
  | None => h
  | Some scenario_section => append_components h scenario_section components
  end.

(** ** The same operations on documents as values

    These say what the operations above do to the document that a
    reference stands for; the theorems below relate the two. *)

Fixpoint update_first (P : tree → bool) (f : tree → tree) (ts : list tree)
    : list tree :=
  match ts with
  | [] => []
  | t :: r => if P t then f t :: r else t :: update_first P f r
  end.

Definition tree_set_text (v : string) (t : tree) : tree :=
  let 'Node tg a _ tl cs := t in Node tg a (Some v) tl cs.

Definition tree_map_children (f : list tree → list tree) (t : tree) : tree :=
  let 'Node tg a tx tl cs := t in Node tg a tx tl (f cs).

Definition tree_set_value (section key v : string) (t : tree) : tree :=
  tree_map_children
    (update_first (fun s => tag_is (tree_tag s) section)
       (tree_map_children
          (update_first (fun c => is_value_named (tree_tag c) (tree_attrib c) key)
             (tree_set_text v))))
    t.

Definition scenario_document (t : tree) (scenario_name rcp ssp : string) : tree :=
  tree_set_value "Files" "xmldb-location" ("../output/db_" +:+ scenario_name)
    (tree_set_value "Files" "policy-target-file"
       ("../input/policy/policy_target_" +:+ rcp +:+ "_spa"
        +:+ _get_spa_code ssp rcp +:+ ".xml")
       (tree_set_value "Strings" "scenarioName" scenario_name t)).

Definition component_tree (c : string * string) : tree :=
  let e := component_element (fst c) (snd c) in
  Node (el_tag e) (el_attrib e) (el_text e) (el_tail e) [].

Definition tree_append_components (components : list (string * string)) (t : tree)
    : tree :=
  tree_map_children
    (update_first (fun s => tag_is (tree_tag s) "ScenarioComponents")
       (tree_map_children (fun cs => cs ++ map component_tree components)))
    t.

Definition has_child (t : tree) (name : string) : bool :=
  existsb (fun s => tag_is (tree_tag s) name) (tree_children t).

(* ====================================================================== *)
(** * GCAMConfigurationGenerator *)
(* ====================================================================== *)

(** [output_path / file_name], kept as its two parts. *)
Abbreviation file_path := (string * string)%type (only parsing).

Definition path_name (p : file_path) : string := snd p.

(** What a call of [_generate_single_scenario] ends in: an exception that
    leaves the function, or its return value. *)
Inductive outcome :=
  | Raised
  | Returned (file : option file_path).

(** Everything the program can change: the element objects, the cache of
    the extractor, and the files written so far. *)
Record world := World {
  heap : list element;
  lru : list (string * list (string * string));
  files : gmap (string * string) string
}.

(** The surroundings the program runs in.  [xml_source] is what the XML
    files that the program reads hold (the template and the per-pathway
    source files); the program never writes them: an output file is named
    [..._PR<rate>.xml], a source file [<id>_config.xml].
    [tostring] is [ET.tostring(_, encoding="unicode")].  [can_write] tells
    whether opening a path for writing succeeds, [mkdir_ok] whether the
    output directory exists or can be made.  [pool] is
    [ThreadPoolExecutor] with [as_completed]: given the number of workers
    and the submitted calls it yields, in order of completion, the
    position of each call with what it ended in. *)
Record environment := Environment {
  xml_source : string → source_file;
  tostring : tree → string;
  can_write : string * string → bool;
  mkdir_ok : string → bool;
  pool : nat → list (world → world * outcome) → world
         → world * list (nat * outcome)
}.

Record generator := Generator {
  parameters : ScenarioParameters;
  template_root : loc;
  ssp_files_directory : string
}.

(** [self.ssp_extractor.extract_ssp_components(ssp)], through the cache. *)
Definition cached_extract (env : environment) (g : generator) (ssp : string)
    (c : list (string * list (string * string)))
    : list (string * list (string * string)) * list (string * string) :=
  lru_call 10 (extract_ssp_components (xml_source env) (ssp_files_directory g)) ssp c.

Definition _generate_single_scenario (env : environment) (g : generator)
    (scenario_params : scenario) (output_path : string) (w : world)
    : world * outcome :=
  let ssp := sc_ssp scenario_params in
  let rcp := sc_rcp scenario_params in
  match scenario_name scenario_params with
  | None => (w, Raised)
  | Some scenario_name =>
      match create_scenario_config (heap w) (template_root g) scenario_name rcp ssp with
      | None => (w, Returned None)
      | Some (h1, config_root) =>
          let '(lru1, ssp_components) := cached_extract env g ssp (lru w) in
          match ssp_components with
          | [] => (World h1 lru1 (files w), Returned None)
          | _ :: _ =>
              let components_to_add :=
                map (fun np => (fst np, snd np)) ssp_components in
              let h2 := append_ssp_components h1 config_root components_to_add in
              let output_file := (output_path, scenario_name +:+ ".xml") in
              match reify (length h2) h2 config_root with
              | None => (World h2 lru1 (files w), Returned None)
              | Some document =>
                  let xml_string := tostring env document in
                  if can_write env output_file
                  then (World h2 lru1 (<[output_file := xml_string]> (files w)),
                        Returned (Some output_file))
                  else (World h2 lru1 (files w), Returned None)
              end
          end
      end
  end.

Fixpoint _generate_sequential (env : environment) (g : generator)
    (scenarios : list scenario) (output_path : string) (w : world)
    : world * list (string * string) :=
  match scenarios with
  | [] => (w, [])
  | scenario_params :: rest =>
      let '(w1, r) := _generate_single_scenario env g scenario_params output_path w in
      let '(w2, generated_files) := _generate_sequential env g rest output_path w1 in
      (w2, match r with
           | Returned (Some file_path) => file_path :: generated_files
           | Returned None => generated_files
           | Raised => generated_files
           end)
  end.

(** The loop over [as_completed]: a path is kept, [None] and an exception
    are passed over. *)
Fixpoint collect_completed (completed : list (nat * outcome)) : list (string * string) :=
  match completed with
  | [] => []
  | (_, Returned (Some file_path)) :: r => file_path :: collect_completed r
  | (_, Returned None) :: r => collect_completed r
  | (_, Raised) :: r => collect_completed r
  end.

(** [None] is the [ValueError] of a pool with no worker. *)
Definition _generate_concurrent (env : environment) (g : generator)
    (scenarios : list scenario) (output_path : string) (w : world)
    : option (world * list (string * string)) :=
  let max_workers := Nat.min 8 (length scenarios) in
  if Nat.eqb max_workers 0 then None
  else
    let submitted :=
      map (fun scenario_params =>
             _generate_single_scenario env g scenario_params output_path)
          scenarios in
    let '(w', completed) := pool env max_workers submitted w in
    Some (w', collect_completed completed).

(** [ssp in ssp_filter] *)
Definition in_filter (ssp_filter : list string) (ssp : string) : bool :=
  existsb (String.eqb ssp) ssp_filter.

Definition filtered_ssps (p : ScenarioParameters) (ssp_filter : option (list string))
    : list string :=
  match ssp_filter with
  | Some (x :: f) => List.filter (in_filter (x :: f)) (ssps p)
  | Some [] => ssps p
  | None => ssps p
  end.

(** [itertools.product] of six lists: the last one runs fastest. *)
Definition product6 (l1 l2 : list string) (l3 : list Z) (l4 l5 l6 : list string)
    : list scenario :=
  flat_map (fun a => flat_map (fun b => flat_map (fun c => flat_map (fun d =>
  flat_map (fun e => map (fun f =>
    {| sc_ssp := a; sc_rcp := b; sc_pr_rate := c; sc_tech := d;
       sc_supply := e; sc_allocation := f |}) l6) l5) l4) l3) l2) l1.

Definition _generate_combinations (p : ScenarioParameters)
    (ssp_filter : option (list string)) : list scenario :=
  product6 (filtered_ssps p ssp_filter) (rcps p) (pr_adoption_rates p)
    (technology_levels p) (supply_capacities p) (allocation_regulations p).

(** [None] is an exception that leaves the function: the output directory
    cannot be made. *)
Definition generate_all_configs (env : environment) (g : generator)
    (output_directory : string) (ssp_filter : option (list string))
    (use_concurrency : bool) (w : world)
    : option (world * list (string * string)) :=
  if mkdir_ok env output_directory then
    let scenario_combinations := _generate_combinations (parameters g) ssp_filter in
    if use_concurrency && Nat.ltb 1 (length scenario_combinations)
    then _generate_concurrent env g scenario_combinations output_directory w
    else Some (_generate_sequential env g scenario_combinations output_directory w)
  else None.

(** [GCAMConfigurationGenerator.__init__]: [BaseTemplateManager()] parses
    the template named by its default argument and keeps the root; a
    template that is missing or does not parse raises, here [None].  The
    extractor starts with an empty cache. *)
Definition _load_template (env : environment) (template_path : string) : option tree :=
  match xml_source env template_path with
  | Parsed t => Some t
  | Absent => None
  | Malformed => None
  | Unreadable => None
  end.

Definition new_generator (env : environment) (p : ScenarioParameters)
    (ssp_files_directory : string) : option (generator * world) :=
  match _load_template env "configuration_reuse100.xml" with
  | None => None
  | Some t =>
      let '(h, root) := alloc_tree t [] in
      Some (Generator p root ssp_files_directory, World h [] ∅)
  end.

(** ** Clients of the template manager

    A client asks for scenario documents and appends components to the
    documents it was given, in any order. *)
Inductive manager_call :=
  | CreateConfig (scenario_name rcp ssp : string)
  | AppendComponents (document : nat) (components : list (string * string)).

(** The state of a client: the store and the documents returned so far,
    oldest first. *)
Definition run_call (template_root : loc) (c : manager_call)
    (s : list element * list nat) : list element * list nat :=
  let '(h, docs) := s in
  match c with
  | CreateConfig scenario_name rcp ssp =>
      match create_scenario_config h template_root scenario_name rcp ssp with
      | Some (h', d) => (h', docs ++ [d])
      | None => (h, docs)
      end
  | AppendComponents i components =>
      match docs !! i with
      | Some d => (append_ssp_components h d components, docs)
      | None => (h, docs)
      end
  end.

Definition run_calls (template_root : loc) (cs : list manager_call)
    (s : list element * list nat) : list element * list nat :=
  fold_left (fun s c => run_call template_root c s) cs s.

(** ** A reference stands for a document

    [repr h l t F]: in store [h] the object [l] and the objects below it
    spell the document [t]; [F] lists the objects used, once for each
    place of the document. *)
Inductive repr (h : list element) : nat → tree → list nat → Prop :=
  | repr_node l tg a tx tl cls cts F :
      h !! l = Some (Element tg a tx tl cls) →
      repr_forest h cls cts F →
      repr h l (Node tg a tx tl cts) (l :: F)
with repr_forest (h : list element) : list nat → list tree → list nat → Prop :=
  | repr_nil : repr_forest h [] [] []
  | repr_cons c t Fc cls cts F :
      repr h c t Fc →
      repr_forest h cls cts F →
      repr_forest h (c :: cls) (t :: cts) (Fc ++ F).

Scheme repr_min := Minimality for repr Sort Prop
  with repr_forest_min := Minimality for repr_forest Sort Prop.
Combined Scheme repr_mutual from repr_min, repr_forest_min.

(** The template of the generator is the document [t], held without
    sharing between its parts. *)
Definition template_is (g : generator) (w : world) (t : tree) : Prop :=
  ∃ F, repr (heap w) (template_root g) t F ∧ NoDup F.

(** Every cached result is what the extractor computes for its key. *)
Definition cache_ok (env : environment) (g : generator) (w : world) : Prop :=
  Forall (fun kv =>
            snd kv = extract_ssp_components (xml_source env)
                       (ssp_files_directory g) (fst kv))
         (lru w).

(** Objects from reference [n] on refer only to objects from [n] on. *)
Definition upward (n : nat) (h : list element) : Prop :=
  ∀ l e, n ≤ l → h !! l = Some e → Forall (fun c => n ≤ c) (el_children e).

(** The field update of the three [_update_*] methods, by section and key. *)
Definition update_value (h : store) (root : loc) (section key v : string) : store :=
  match find h root section with
  | Some s => set_first_value h (children_of h s) key v
  | None => h
  end.

(** The file that the scenario [sc] ends in when the template is the
    document [t]: its path and its content, or [None] when the scenario
    produces no file. *)
Definition scenario_file (env : environment) (g : generator) (t : tree)
    (sc : scenario) (output_path : string) : option ((string * string) * string) :=
  match scenario_name sc with
  | None => None
  | Some name =>
      match extract_ssp_components (xml_source env) (ssp_files_directory g)
              (sc_ssp sc) with
      | [] => None
      | c :: r =>
          if can_write env (output_path, name +:+ ".xml")
          then Some ((output_path, name +:+ ".xml"),
                     tostring env
                       (tree_append_components (c :: r)
                          (scenario_document t name (sc_rcp sc) (sc_ssp sc))))
          else None
      end
  end.

Definition write_file (f : option ((string * string) * string))
    (fs : gmap (string * string) string) : gmap (string * string) string :=
  match f with
  | Some (p, content) => <[p := content]> fs
  | None => fs
  end.

(** The same surroundings with another pool. *)
Definition set_pool (env : environment)
    (p : nat → list (world → world * outcome) → world → world * list (nat * outcome))
    : environment :=
  Environment (xml_source env) (tostring env) (can_write env) (mkdir_ok env) p.

(** What [ThreadPoolExecutor] and [as_completed] promise: every submitted
    call completes once, and what is reported for it is what the call
    ended in, run from some state of the world. *)
Definition pool_faithful (submitted : list (world → world * outcome))
    (completed : list (nat * outcome)) : Prop :=
  map fst completed ≡ₚ seq 0 (length submitted)
  ∧ Forall (fun io => ∃ call w, submitted !! (fst io) = Some call
                                ∧ snd (call w) = snd io) completed.

Definition all_succeeded (completed : list (nat * outcome)) : Prop :=
  Forall (fun io => ∃ p, snd io = Returned (Some p)) completed.

(** The classification of an entry as the specification words it: the
    marker on the name alone makes a comment. *)
Definition spec_component_element (name path : string) : element :=
  if PyStr.startswith name "COMMENT_" then
    let comment_text :=
      PyStr.strip (PyStr.replace (PyStr.replace path "<!--" "") "-->" "") in
    Element CommentTag [] (Some (" " +:+ comment_text +:+ " ")) None []
  else
    Element (Tag "Value") [("name", name)] (Some path) None [].

(** A scenario drawn from the six lists of [p]. *)
Definition in_domain (p : ScenarioParameters) (sc : scenario) : Prop :=
  sc_ssp sc ∈ ssps p ∧ sc_rcp sc ∈ rcps p
  ∧ sc_pr_rate sc ∈ pr_adoption_rates p ∧ sc_tech sc ∈ technology_levels p
  ∧ sc_supply sc ∈ supply_capacities p
  ∧ sc_allocation sc ∈ allocation_regulations p.

Definition option_string_eqb (a b : option string) : bool :=
  match a, b with
  | Some x, Some y => String.eqb x y
  | None, None => true
  | _, _ => false
  end.

(** No two different scenarios of [l] have the same name. *)
Definition names_distinct (l : list scenario) : bool :=
  let named := map (fun sc => (sc, scenario_name sc)) l in
  forallb (fun a =>
    forallb (fun b =>
      if option_string_eqb (snd a) (snd b)
      then scenario_eqb (fst a) (fst b) else true)
      named) named.

(** ** A small installation

    A template with the three regions, one source file for SSP1 and none
    for SSP2, and a pool with a single worker that takes the submitted
    calls in turn. *)
Definition demo_template : tree :=
  Node (Tag "Configuration") [] None None
    [ Node (Tag "Files") [] None None
        [ Node (Tag "Value") [("name", "xmldb-location")]
            (Some "../output/database_basexdb") None [];
          Node (Tag "Value") [("name", "policy-target-file")]
            (Some "../input/policy/policy_target_4p5_spa23.xml") None [] ];
      Node (Tag "Strings") [] None None
        [ Node (Tag "Value") [("name", "scenarioName")] (Some "Reference") None [] ];
      Node (Tag "ScenarioComponents") [] None None
        [ Node (Tag "Value") [("name", "climate")]
            (Some "../input/climate/magicc.xml") None [] ] ].

Definition demo_ssp1 : tree :=
  Node (Tag "ScenarioComponents") [] None None
    [ Node CommentTag [] (Some " SSP1 Socioeconomics ") None [];
      Node (Tag "Value") [("name", "socioeconomics")]
        (Some " ../input/gcamdata/xml/socioeconomics_SSP1.xml ") None [] ].

(** A template without the components region. *)
Definition bare_template : tree :=
  Node (Tag "Configuration") [] None None
    [ Node (Tag "Strings") [] None None
        [ Node (Tag "Value") [("name", "scenarioName")] (Some "Reference") None [] ] ].

Fixpoint demo_tostring (t : tree) : string :=
  let 'Node tg _ tx _ cs := t in
  "<" +:+ match tg with Tag n => n | CommentTag => "!--" | PITag => "?" end +:+ ">"
  +:+ default "" tx
  +:+ fold_right (fun c acc => demo_tostring c +:+ acc) "" cs +:+ "</>".

Fixpoint run_in_turn (calls : list (world → world * outcome)) (i : nat) (w : world)
    : world * list (nat * outcome) :=
  match calls with
  | [] => (w, [])
  | call :: r =>
      let '(w1, o) := call w in
      let '(w2, os) := run_in_turn r (S i) w1 in
      (w2, (i, o) :: os)
  end.

Definition demo_files (template : tree) (path : string) : source_file :=
  if String.eqb path "configuration_reuse100.xml" then Parsed template
  else if String.eqb path "./SSP1_config.xml" then Parsed demo_ssp1
  else Absent.

Definition demo_env (template : tree) : environment :=
  Environment (demo_files template) demo_tostring (fun _ => true) (fun _ => true)
    (fun _ calls w => run_in_turn calls 0 w).

Definition demo_parameters : ScenarioParameters := {|
  ssps := ["SSP1"; "SSP2"];
  rcps := ["6p0"];
  pr_adoption_rates := [50]%Z;
  technology_levels := ["Advanced"];
  supply_capacities := ["Low"];
  allocation_regulations := ["Market-driven"; "Regulatory"]
|}.

(** The generator and the state that [new_generator] builds there. *)
Definition demo_generator (template : tree) : generator :=
  Generator demo_parameters (snd (alloc_tree template [])) "./".

Definition demo_world (template : tree) : world :=
  World (fst (alloc_tree template [])) [] ∅.

Definition demo_scenario (ssp allocation : string) : scenario :=
  {| sc_ssp := ssp; sc_rcp := "6p0"; sc_pr_rate := 50; sc_tech := "Advanced";
     sc_supply := "Low"; sc_allocation := allocation |}.

(** A document root with an empty components region below it. *)
Definition demo_store : list element :=
  [ Element (Tag "ScenarioComponents") [] None None [];
    Element (Tag "Configuration") [] None None [0] ].

(* ====================================================================== *)
(** * Facts about strings and names *)
(* ====================================================================== *)

Example name_sample :
  generate_scenario_name "SSP2" "4p5" 25 "Advanced" "Medium" "Regulatory"
  = Some "SSP2_4p5_Tech_M_Reg_PR25".
Proof. reflexivity. Qed.

Example rates_sample :
  map PyStr.str_of_int [0; 25; 50; 75; 100; -5]%Z = ["0"; "25"; "50"; "75"; "100"; "-5"].
Proof. reflexivity. Qed.

Example spa_sample : _get_spa_code "SSP5" "6p0" = "0" ∧ _get_spa_code "SSP3" "8p5" = "23".
Proof. split; vm_compute; reflexivity. Qed.

Example strip_sample : PyStr.strip "  a b  " = "a b" ∧
  PyStr.replace "<!-- x -->" "<!--" "" = " x -->" ∧
  PyStr.replace "aaa" "aa" "b" = "ba" ∧ PyStr.lower "A-b C" = "a-b c".
Proof. repeat split. Qed.

Lemma string_eqb_true (a b : string) : String.eqb a b = true ↔ a = b.
Proof. apply String.eqb_eq. Qed.

Lemma string_eqb_false (a b : string) : String.eqb a b = false ↔ a ≠ b.
Proof. apply String.eqb_neq. Qed.

(* ====================================================================== *)
(** * Facts about the store *)
(* ====================================================================== *)

Lemma tree_induction (P : tree → Prop) :
  (∀ tg a tx tl cs, Forall P cs → P (Node tg a tx tl cs)) → ∀ t, P t.
Proof.
  intros step. fix IH 1. intros [tg a tx tl cs]. apply step.
  induction cs as [|c cs IHcs]; constructor; [apply IH | apply IHcs].
Qed.

Lemma update_value_names h root scenario_name rcp ssp :
  _update_scenario_name h root scenario_name
    = update_value h root "Strings" "scenarioName" scenario_name
  ∧ _update_policy_target h root rcp ssp
    = update_value h root "Files" "policy-target-file"
        ("../input/policy/policy_target_" +:+ rcp +:+ "_spa"
         +:+ _get_spa_code ssp rcp +:+ ".xml")
  ∧ _update_database_location h root scenario_name
    = update_value h root "Files" "xmldb-location" ("../output/db_" +:+ scenario_name).
Proof.
  unfold _update_scenario_name, _update_policy_target, _update_database_location,
    update_value.
  repeat split; destruct (find h root _); reflexivity.
Qed.

Lemma find_child_elem h cs name s :
  find_child h cs name = Some s → s ∈ cs.
Proof.
  induction cs as [|c cs IH]; simpl; [discriminate|].
  destruct (h !! c) as [e|].
  - destruct (tag_is (el_tag e) name).
    + intros [= ->]. left.
    + intros H. right. auto.
  - intros H. right. auto.
Qed.

Lemma find_child_of h root name s :
  find h root name = Some s → s ∈ children_of h root.
Proof.
  unfold find, children_of. destruct (h !! root); [|discriminate].
  apply find_child_elem.
Qed.

Lemma set_text_length h l v : length (set_text h l v) = length h.
Proof. unfold set_text. destruct (h !! l); [apply length_insert | reflexivity]. Qed.

Lemma set_text_lookup_ne h l v x : x ≠ l → set_text h l v !! x = h !! x.
Proof.
  intros Hne. unfold set_text. destruct (h !! l); [|reflexivity].
  apply list_lookup_insert_ne. congruence.
Qed.

Lemma set_text_lookup h l v e :
  h !! l = Some e →
  set_text h l v !! l
  = Some (Element (el_tag e) (el_attrib e) (Some v) (el_tail e) (el_children e)).
Proof.
  intros H. unfold set_text. rewrite H.
  apply list_lookup_insert_eq. eapply lookup_lt_Some; eauto.
Qed.

Lemma set_text_children h l v x : children_of (set_text h l v) x = children_of h x.
Proof.
  unfold children_of. destruct (decide (x = l)) as [->|Hne].
  - destruct (h !! l) as [e|] eqn:He.
    + rewrite (set_text_lookup _ _ _ _ He). reflexivity.
    + unfold set_text. rewrite He. rewrite He. reflexivity.
  - rewrite set_text_lookup_ne by done. reflexivity.
Qed.

Lemma set_first_value_cases h cs key v :
  set_first_value h cs key v = h
  ∨ ∃ c, c ∈ cs ∧ set_first_value h cs key v = set_text h c v.
Proof.
  induction cs as [|c cs IH]; simpl; [by left|].
  destruct (h !! c) as [e|].
  - destruct (is_value_named _ _ _).
    + right. exists c. split; [left | reflexivity].
    + destruct IH as [IH|(c' & Hc' & IH)]; [by left|].
      right. exists c'. split; [by right | done].
  - destruct IH as [IH|(c' & Hc' & IH)]; [by left|].
    right. exists c'. split; [by right | done].
Qed.

Lemma set_text_take n h l v : n ≤ l → take n (set_text h l v) = take n h.
Proof.
  intros Hle. unfold set_text. destruct (h !! l); [|reflexivity].
  by apply take_insert_ge.
Qed.

Lemma upward_children n h l c :
  upward n h → n ≤ l → c ∈ children_of h l → n ≤ c.
Proof.
  intros Hup Hle. unfold children_of. destruct (h !! l) as [e|] eqn:He.
  - intros Hc. specialize (Hup l e Hle He). rewrite Forall_forall in Hup. auto.
  - intros Hc. by apply elem_of_nil in Hc.
Qed.

Lemma upward_same_children n h h' :
  upward n h → (∀ x, children_of h' x = children_of h x) →
  length h' = length h → upward n h'.
Proof.
  intros Hup Hch Hlen l e Hle He.
  assert (is_Some (h !! l)) as [e0 He0].
  { apply lookup_lt_is_Some. rewrite <- Hlen. eapply lookup_lt_Some; eauto. }
  specialize (Hch l). unfold children_of in Hch. rewrite He, He0 in Hch.
  rewrite Hch. eapply Hup; eauto.
Qed.

Lemma set_first_value_length h cs key v :
  length (set_first_value h cs key v) = length h.
Proof.
  destruct (set_first_value_cases h cs key v) as [->|(c & _ & ->)];
    [done | apply set_text_length].
Qed.

Lemma set_first_value_children h cs key v x :
  children_of (set_first_value h cs key v) x = children_of h x.
Proof.
  destruct (set_first_value_cases h cs key v) as [->|(c & _ & ->)];
    [done | apply set_text_children].
Qed.

Lemma update_value_length h root section key v :
  length (update_value h root section key v) = length h.
Proof.
  unfold update_value. destruct (find h root section); [|done].
  apply set_first_value_length.
Qed.

Lemma update_value_children h root section key v x :
  children_of (update_value h root section key v) x = children_of h x.
Proof.
  unfold update_value. destruct (find h root section); [|done].
  apply set_first_value_children.
Qed.

Lemma update_value_take n h root section key v :
  upward n h → n ≤ root →
  take n (update_value h root section key v) = take n h.
Proof.
  intros Hup Hle. unfold update_value.
  destruct (find h root section) as [s|] eqn:Hs; [|done].
  assert (n ≤ s) as Hns.
  { eapply upward_children; eauto using find_child_of. }
  destruct (set_first_value_cases h (children_of h s) key v)
    as [->|(c & Hc & ->)]; [done|].
  apply set_text_take. eapply upward_children; eauto.
Qed.

Lemma update_value_upward n h root section key v :
  upward n h → upward n (update_value h root section key v).
Proof.
  intros Hup. eapply upward_same_children; eauto.
  - apply update_value_children.
  - apply update_value_length.
Qed.

Lemma append_components_eq comps : ∀ h s e,
  h !! s = Some e →
  append_components h s comps
  = <[s := Element (el_tag e) (el_attrib e) (el_text e) (el_tail e)
             (el_children e ++ seq (length h) (length comps))]> h
    ++ map (fun c => component_element (fst c) (snd c)) comps.
Proof.
  induction comps as [|[name path] r IH]; intros h s e He; simpl.
  - rewrite !app_nil_r. symmetry. apply list_insert_id. by destruct e.
  - assert (s < length h) as Hlt by (eapply lookup_lt_Some; eauto).
    unfold append_child.
    rewrite lookup_app_l, He by done.
    erewrite IH.
    2:{ apply list_lookup_insert_eq. rewrite length_app. simpl. lia. }
    simpl. rewrite list_insert_insert_eq, length_insert, length_app. simpl.
    rewrite insert_app_l by done.
    rewrite <- !app_assoc. simpl.
    replace (length h + 1) with (S (length h)) by lia. reflexivity.
Qed.

Lemma copy_all_store (copy : list element → nat → option (list element * nat)) :
  (∀ h l h' l', copy h l = Some (h', l') →
     ∃ ext, h' = h ++ ext ∧ length h ≤ l'
            ∧ Forall (fun e => Forall (fun c => length h ≤ c) (el_children e)) ext) →
  ∀ cs h h1 cs', copy_all copy cs h = Some (h1, cs') →
     ∃ ext, h1 = h ++ ext ∧ Forall (fun c => length h ≤ c) cs'
            ∧ Forall (fun e => Forall (fun c => length h ≤ c) (el_children e)) ext.
Proof.
  intros Hcopy. induction cs as [|c cs IH]; intros h h1 cs'; simpl.
  - intros [= <- <-]. exists []. rewrite app_nil_r. auto.
  - destruct (copy h c) as [[h2 c']|] eqn:Hc; [|discriminate].
    destruct (copy_all copy cs h2) as [[h3 r']|] eqn:Hr; [|discriminate].
    intros [= <- <-].
    destruct (Hcopy _ _ _ _ Hc) as (ext1 & -> & Hc' & Hext1).
    destruct (IH _ _ _ Hr) as (ext2 & -> & Hr' & Hext2).
    exists (ext1 ++ ext2). rewrite app_assoc. split; [done|].
    rewrite length_app in Hr', Hext2. split.
    + constructor; [done|]. eapply Forall_impl; [exact Hr'|]. simpl. lia.
    + apply Forall_app. split; [done|].
      eapply Forall_impl; [exact Hext2|]. simpl. intros e He.
      eapply Forall_impl; [exact He|]. simpl. lia.
Qed.

Lemma deepcopy_store fuel : ∀ h l h' l',
  deepcopy fuel h l = Some (h', l') →
  ∃ ext, h' = h ++ ext ∧ length h ≤ l'
         ∧ Forall (fun e => Forall (fun c => length h ≤ c) (el_children e)) ext.
Proof.
  induction fuel as [|fuel IH]; intros h l h' l'; simpl; [discriminate|].
  destruct (h !! l) as [e|]; [|discriminate].
  destruct (copy_all (deepcopy fuel) (el_children e) h) as [[h1 cs']|] eqn:Hc;
    [|discriminate].
  unfold alloc. intros [= <- <-].
  destruct (copy_all_store _ IH _ _ _ _ Hc) as (ext & -> & Hcs & Hext).
  exists (ext ++ [Element (el_tag e) (el_attrib e) (el_text e) (el_tail e) cs']).
  rewrite app_assoc. split; [done|]. split; [rewrite length_app; lia|].
  apply Forall_app. split; [done|]. constructor; [|constructor]. done.
Qed.

Lemma extend_upward n h ext :
  n ≤ length h → upward n h →
  Forall (fun e => Forall (fun c => length h ≤ c) (el_children e)) ext →
  upward n (h ++ ext).
Proof.
  intros Hn Hup Hext l e Hle He.
  destruct (decide (l < length h)) as [Hlt|Hge].
  - rewrite lookup_app_l in He by done. eauto.
  - rewrite lookup_app_r in He by lia.
    rewrite Forall_forall in Hext.
    eapply Forall_impl; [apply Hext; eapply list_elem_of_lookup_2; eauto|].
    simpl. lia.
Qed.

Lemma lookup_map_Some {A B} (f : A → B) (l : list A) i y :
  map f l !! i = Some y → ∃ x, l !! i = Some x ∧ y = f x.
Proof.
  revert i. induction l as [|a l IH]; intros [|i]; simpl; try discriminate.
  - intros [= <-]. eauto.
  - apply IH.
Qed.

Lemma lookup_map {A B} (f : A → B) (l : list A) i x :
  l !! i = Some x → map f l !! i = Some (f x).
Proof.
  revert i. induction l as [|a l IH]; intros [|i]; simpl; try discriminate.
  - by intros [= <-].
  - apply IH.
Qed.

Lemma find_child_Some h cs name s :
  find_child h cs name = Some s →
  ∃ e, h !! s = Some e ∧ tag_is (el_tag e) name = true.
Proof.
  induction cs as [|c cs IH]; simpl; [discriminate|].
  destruct (h !! c) as [e|] eqn:He; [|exact IH].
  destruct (tag_is (el_tag e) name) eqn:Ht; [|exact IH].
  intros [= <-]. eauto.
Qed.

Lemma component_element_leaf name path :
  el_children (component_element name path) = [].
Proof. unfold component_element. by destruct (_ && _). Qed.

Lemma create_frame n h root name rcp ssp h' c :
  n ≤ length h → upward n h →
  create_scenario_config h root name rcp ssp = Some (h', c) →
  take n h' = take n h ∧ upward n h' ∧ n ≤ c ∧ length h ≤ length h'.
Proof.
  intros Hn Hup. unfold create_scenario_config.
  destruct (deepcopy (length h) h root) as [[h1 c1]|] eqn:Hd; [|discriminate].
  intros [= <- <-].
  destruct (deepcopy_store _ _ _ _ _ Hd) as (ext & -> & Hc & Hext).
  destruct (update_value_names
              (_update_policy_target (_update_scenario_name (h ++ ext) c1 name) c1 rcp ssp)
              c1 name rcp ssp) as (_ & _ & ->).
  destruct (update_value_names (_update_scenario_name (h ++ ext) c1 name)
              c1 name rcp ssp) as (_ & -> & _).
  destruct (update_value_names (h ++ ext) c1 name rcp ssp) as (-> & _ & _).
  assert (upward n (h ++ ext)) as Hup1 by (by apply extend_upward).
  assert (n ≤ c1) as Hnc by lia.
  repeat split.
  - rewrite !update_value_take by (repeat apply update_value_upward; done).
    by apply take_app_le.
  - by repeat apply update_value_upward.
  - done.
  - rewrite !update_value_length, length_app. lia.
Qed.

Lemma append_frame n h c comps :
  upward n h → n ≤ c →
  take n (append_ssp_components h c comps) = take n h
  ∧ upward n (append_ssp_components h c comps)
  ∧ length h ≤ length (append_ssp_components h c comps).
Proof.
  intros Hup Hle. unfold append_ssp_components.
  destruct (find h c "ScenarioComponents") as [s|] eqn:Hs; [|done].
  assert (n ≤ s) as Hns by (eapply upward_children; eauto using find_child_of).
  unfold find in Hs. destruct (h !! c) as [ec|]; [|discriminate].
  destruct (find_child_Some _ _ _ _ Hs) as (e & He & _).
  assert (s < length h) as Hlt by (eapply lookup_lt_Some; eauto).
  rewrite (append_components_eq _ _ _ _ He).
  repeat split.
  - rewrite take_app_le by (rewrite length_insert; lia).
    by apply take_insert_ge.
  - intros l e' Hl He'.
    destruct (decide (l < length h)) as [Hl'|Hl'].
    + rewrite lookup_app_l in He' by (by rewrite length_insert).
      destruct (decide (l = s)) as [->|Hne].
      * rewrite list_lookup_insert_eq in He' by done. injection He' as <-. simpl.
        apply Forall_app. split; [eauto|].
        apply Forall_forall. intros x Hx%elem_of_seq. lia.
      * rewrite list_lookup_insert_ne in He' by done. eauto.
    + rewrite lookup_app_r in He' by (rewrite length_insert; lia).
      apply lookup_map_Some in He' as (cp & _ & ->).
      by rewrite component_element_leaf.
  - rewrite length_app, length_insert. lia.
Qed.

Lemma run_calls_frame root n calls : ∀ h docs,
  n ≤ length h → upward n h → Forall (fun d => n ≤ d) docs →
  take n (fst (run_calls root calls (h, docs))) = take n h
  ∧ upward n (fst (run_calls root calls (h, docs)))
  ∧ n ≤ length (fst (run_calls root calls (h, docs))).
Proof.
  induction calls as [|c calls IH]; intros h docs Hn Hup Hdocs; [done|].
  change (run_calls root (c :: calls) (h, docs))
    with (run_calls root calls (run_call root c (h, docs))).
  destruct c as [name rcp ssp|i comps]; unfold run_call.
  - destruct (create_scenario_config h root name rcp ssp) as [[h' d]|] eqn:Hc.
    + destruct (create_frame n _ _ _ _ _ _ _ Hn Hup Hc) as (Ht & Hup' & Hd & Hlen).
      destruct (IH h' (docs ++ [d])) as (IH1 & IH2 & IH3);
        [lia | done | apply Forall_app; split; [done | by repeat constructor] |].
      rewrite IH1. done.
    + by apply IH.
  - destruct (docs !! i) as [d|] eqn:Hd.
    + assert (n ≤ d) as Hnd.
      { rewrite Forall_forall in Hdocs. apply Hdocs.
        eapply list_elem_of_lookup_2; eauto. }
      destruct (append_frame n h d comps Hup Hnd) as (Ht & Hup' & Hlen).
      destruct (IH (append_ssp_components h d comps) docs) as (IH1 & IH2 & IH3);
        [lia | done | done |].
      rewrite IH1. done.
    + by apply IH.
Qed.

(** ** Documents in the store *)

Lemma repr_frame h h' :
  (∀ l t F, repr h l t F → (∀ x, x ∈ F → h' !! x = h !! x) → repr h' l t F)
  ∧ (∀ cls cts F, repr_forest h cls cts F →
       (∀ x, x ∈ F → h' !! x = h !! x) → repr_forest h' cls cts F).
Proof.
  apply repr_mutual.
  - intros l tg a tx tl cls cts F Hl _ IH Hag. apply repr_node with (cls := cls).
    + rewrite Hag by left. done.
    + apply IH. intros x Hx. apply Hag. by right.
  - intros _. constructor.
  - intros c t Fc cls cts F _ IHc _ IHf Hag. constructor.
    + apply IHc. intros x Hx. apply Hag. apply elem_of_app. by left.
    + apply IHf. intros x Hx. apply Hag. apply elem_of_app. by right.
Qed.

Lemma repr_dom h :
  (∀ l t F, repr h l t F → ∀ x, x ∈ F → x < length h)
  ∧ (∀ cls cts F, repr_forest h cls cts F → ∀ x, x ∈ F → x < length h).
Proof.
  apply repr_mutual.
  - intros l tg a tx tl cls cts F Hl _ IH x Hx.
    apply elem_of_cons in Hx as [->|Hx]; [eapply lookup_lt_Some; eauto | auto].
  - intros x Hx. by apply elem_of_nil in Hx.
  - intros c t Fc cls cts F _ IHc _ IHf x Hx.
    apply elem_of_app in Hx as [Hx|Hx]; auto.
Qed.

Lemma repr_size h :
  (∀ l t F, repr h l t F → length F = tree_size t)
  ∧ (∀ cls cts F, repr_forest h cls cts F →
       length F = list_sum (map tree_size cts)).
Proof.
  apply repr_mutual.
  - intros l tg a tx tl cls cts F _ _ IH. simpl. by rewrite IH.
  - done.
  - intros c t Fc cls cts F _ IHc _ IHf. rewrite length_app. simpl. lia.
Qed.

Lemma repr_forest_roots h cls cts F :
  repr_forest h cls cts F → ∀ c, c ∈ cls → c ∈ F.
Proof.
  induction 1 as [|c t Fc cls cts F Hc Hf IH]; intros x Hx.
  - by apply elem_of_nil in Hx.
  - apply elem_of_app. apply elem_of_cons in Hx as [->|Hx].
    + left. inversion Hc. left.
    + right. auto.
Qed.

Lemma repr_extend h ext l t F : repr h l t F → repr (h ++ ext) l t F.
Proof.
  intros H. apply (proj1 (repr_frame h (h ++ ext))); [done|].
  intros x Hx. apply lookup_app_l. eapply (proj1 (repr_dom h)); eauto.
Qed.

Lemma repr_forest_extend h ext cls cts F :
  repr_forest h cls cts F → repr_forest (h ++ ext) cls cts F.
Proof.
  intros H. apply (proj2 (repr_frame h (h ++ ext))); [done|].
  intros x Hx. apply lookup_app_l. eapply (proj2 (repr_dom h)); eauto.
Qed.

Lemma bounded_nodup_length (F : list nat) n :
  NoDup F → (∀ x, x ∈ F → x < n) → length F ≤ n.
Proof.
  intros Hnd Hlt.
  assert (length F ≤ length (seq 0 n)) as H; [|by rewrite length_seq in H].
  apply submseteq_length, NoDup_submseteq; [done|].
  intros x Hx. apply elem_of_seq. specialize (Hlt x Hx). lia.
Qed.

Lemma repr_size_bound h l t F :
  repr h l t F → NoDup F → tree_size t ≤ length h.
Proof.
  intros H Hnd. rewrite <- (proj1 (repr_size h) _ _ _ H).
  apply bounded_nodup_length; [done|]. apply (proj1 (repr_dom h) _ _ _ H).
Qed.

Lemma agree_in_range (h h0 : list element) x :
  h !! x = h0 !! x → x < length h0 → x < length h.
Proof.
  intros Hag Hlt. apply lookup_lt_is_Some. rewrite Hag.
  by apply lookup_lt_is_Some.
Qed.

(** A deep copy of a document is the same document, made of new objects
    only. *)
Lemma deepcopy_repr h0 :
  (∀ l t F, repr h0 l t F → ∀ fuel h,
     tree_size t ≤ fuel → (∀ x, x ∈ F → h !! x = h0 !! x) →
     ∃ h' l' F', deepcopy fuel h l = Some (h', l') ∧ repr h' l' t F'
                 ∧ NoDup F' ∧ ∀ x, x ∈ F' → length h ≤ x)
  ∧ (∀ cls cts F, repr_forest h0 cls cts F → ∀ fuel h,
     list_sum (map tree_size cts) ≤ fuel → (∀ x, x ∈ F → h !! x = h0 !! x) →
     ∃ h' cls' F', copy_all (deepcopy fuel) cls h = Some (h', cls')
                   ∧ repr_forest h' cls' cts F'
                   ∧ NoDup F' ∧ ∀ x, x ∈ F' → length h ≤ x).
Proof.
  apply repr_mutual.
  - intros l tg a tx tl cls cts F Hl _ IH fuel h Hfuel Hag.
    destruct fuel as [|fuel]; [simpl in Hfuel; lia|].
    destruct (IH fuel h) as (h1 & cls' & F1 & Hc & Hr & Hnd & Hfresh).
    { simpl in Hfuel. lia. }
    { intros x Hx. apply Hag. by right. }
    simpl. rewrite Hag, Hl by left. simpl. rewrite Hc. unfold alloc.
    destruct (copy_all_store _ (deepcopy_store fuel) _ _ _ _ Hc)
      as (ext & -> & _ & _).
    eexists _, _, (length (h ++ ext) :: F1). split; [reflexivity|].
    assert (∀ x, x ∈ F1 → x < length (h ++ ext)) as Hdom
      by apply (proj2 (repr_dom _) _ _ _ Hr).
    repeat split.
    + apply repr_node with (cls := cls').
      * by apply list_lookup_middle.
      * by apply repr_forest_extend.
    + constructor; [|done]. intros Hin. specialize (Hdom _ Hin). lia.
    + intros x Hx. apply elem_of_cons in Hx as [->|Hx]; [|auto].
      rewrite length_app. lia.
  - intros fuel h _ _. exists h, [], []. simpl. repeat split.
    + constructor.
    + constructor.
    + intros x Hx. by apply elem_of_nil in Hx.
  - intros c t Fc cls cts F Hc IHc Hf IHf fuel h Hfuel Hag.
    simpl in Hfuel.
    destruct (IHc fuel h) as (h1 & c' & F1 & Hd & Hr1 & Hnd1 & Hfresh1).
    { lia. }
    { intros x Hx. apply Hag. apply elem_of_app. by left. }
    destruct (deepcopy_store _ _ _ _ _ Hd) as (ext1 & -> & _ & _).
    destruct (IHf fuel (h ++ ext1)) as (h2 & cls' & F2 & Hca & Hr2 & Hnd2 & Hfresh2).
    { lia. }
    { intros x Hx.
      assert (h !! x = h0 !! x) as Hx' by (apply Hag, elem_of_app; by right).
      rewrite lookup_app_l; [done|].
      eapply agree_in_range; [done|]. eapply (proj2 (repr_dom _)); eauto. }
    destruct (copy_all_store _ (deepcopy_store fuel) _ _ _ _ Hca)
      as (ext2 & -> & _ & _).
    exists ((h ++ ext1) ++ ext2), (c' :: cls'), (F1 ++ F2).
    simpl. rewrite Hd, Hca. repeat split.
    + constructor; [by apply repr_extend | done].
    + apply NoDup_app. repeat split; [done| |done].
      intros x Hx1 Hx2.
      pose proof (proj1 (repr_dom _) _ _ _ Hr1 x Hx1).
      specialize (Hfresh2 x Hx2). lia.
    + intros x Hx. apply elem_of_app in Hx as [Hx|Hx]; [auto|].
      specialize (Hfresh2 x Hx). rewrite length_app in Hfresh2. lia.
Qed.

(** Reading a document back gives the document. *)
Lemma reify_repr h :
  (∀ l t F, repr h l t F → ∀ fuel, tree_size t ≤ fuel → reify fuel h l = Some t)
  ∧ (∀ cls cts F, repr_forest h cls cts F → ∀ fuel,
       list_sum (map tree_size cts) ≤ fuel → mapM (reify fuel h) cls = Some cts).
Proof.
  apply repr_mutual.
  - intros l tg a tx tl cls cts F Hl _ IH fuel Hfuel.
    destruct fuel as [|fuel]; [simpl in Hfuel; lia|].
    simpl. rewrite Hl. simpl. rewrite IH by (simpl in Hfuel; lia). done.
  - done.
  - intros c t Fc cls cts F _ IHc _ IHf fuel Hfuel. simpl in Hfuel.
    simpl. rewrite IHc by lia. simpl. rewrite IHf by lia. done.
Qed.

Lemma reify_document h l t F :
  repr h l t F → NoDup F → reify (length h) h l = Some t.
Proof.
  intros Hr Hnd. eapply (proj1 (reify_repr h)); eauto.
  eapply repr_size_bound; eauto.
Qed.

(** ** The field updates, on documents *)

Lemma set_first_value_outside h cls cts F key v x :
  repr_forest h cls cts F → x ∉ F →
  set_first_value h cls key v !! x = h !! x.
Proof.
  intros Hr Hx.
  destruct (set_first_value_cases h cls key v) as [->|(c & Hc & ->)]; [done|].
  apply set_text_lookup_ne. intros ->. apply Hx.
  eapply repr_forest_roots; eauto.
Qed.

Lemma set_first_value_repr h key v cls cts F :
  repr_forest h cls cts F → NoDup F →
  repr_forest (set_first_value h cls key v) cls
    (update_first (fun c => is_value_named (tree_tag c) (tree_attrib c) key)
       (tree_set_text v) cts) F.
Proof.
  induction 1 as [|c t Fc cls cts F Hc Hf IH]; intros Hnd; [constructor|].
  apply NoDup_app in Hnd as (HndC & Hdisj & HndF).
  inversion Hc as [l tg a tx tl ccls ccts Fcc Hl Hcf]; subst.
  simpl. rewrite Hl. simpl.
  destruct (is_value_named tg a key).
  - apply NoDup_cons in HndC as [HcF _].
    apply (repr_cons _ _ _ (c :: Fcc)).
    + apply repr_node with (cls := ccls).
      * by rewrite (set_text_lookup _ _ _ _ Hl).
      * apply (proj2 (repr_frame h _)); [done|].
        intros x Hx. apply set_text_lookup_ne. by intros ->.
    + apply (proj2 (repr_frame h _)); [done|].
      intros x Hx. apply set_text_lookup_ne. intros ->.
      apply (Hdisj c); [left | done].
  - apply (repr_cons _ _ _ (c :: Fcc)); [|auto].
    apply (proj1 (repr_frame h _)); [done|].
    intros x Hx. eapply set_first_value_outside; eauto.
Qed.

Lemma update_section_repr h section key v cls cts F :
  repr_forest h cls cts F → NoDup F →
  let h' := match find_child h cls section with
            | Some s => set_first_value h (children_of h s) key v
            | None => h
            end in
  repr_forest h' cls
    (update_first (fun s => tag_is (tree_tag s) section)
       (tree_map_children
          (update_first (fun c => is_value_named (tree_tag c) (tree_attrib c) key)
             (tree_set_text v)))
       cts) F
  ∧ ∀ x, x ∉ F → h' !! x = h !! x.
Proof.
  induction 1 as [|c t Fc cls cts F Hc Hf IH]; intros Hnd; simpl.
  { split; [constructor | done]. }
  apply NoDup_app in Hnd as (HndC & Hdisj & HndF).
  inversion Hc as [l tg a tx tl ccls ccts Fcc Hl Hcf]; subst.
  rewrite Hl. simpl.
  destruct (tag_is tg section).
  - apply NoDup_cons in HndC as [HcF HndCC].
    unfold children_of. rewrite Hl. simpl. split.
    + apply (repr_cons _ _ _ (c :: Fcc)).
      * apply repr_node with (cls := ccls).
        -- rewrite (set_first_value_outside _ _ _ _ _ _ _ Hcf HcF). done.
        -- by apply set_first_value_repr.
      * apply (proj2 (repr_frame h _)); [done|].
        intros x Hx. eapply set_first_value_outside; eauto.
        intros Hx'. apply (Hdisj x); [by right | done].
    + intros x Hx. eapply set_first_value_outside; eauto.
      intros Hx'. apply Hx. right. apply elem_of_app. by left.
  - destruct (IH HndF) as [IH1 IH2]. split.
    + apply (repr_cons _ _ _ (c :: Fcc)); [|done].
      apply (proj1 (repr_frame h _)); [done|].
      intros x Hx. apply IH2. intros Hx'. by apply (Hdisj x).
    + intros x Hx. apply IH2. intros Hx'. apply Hx. right. apply elem_of_app. by right.
Qed.

Lemma update_value_repr h root t F section key v :
  repr h root t F → NoDup F →
  repr (update_value h root section key v) root (tree_set_value section key v t) F.
Proof.
  intros Hr Hnd.
  inversion Hr as [l tg a tx tl cls cts Fc Hl Hf]; subst.
  apply NoDup_cons in Hnd as [HrF HndF].
  destruct (update_section_repr h section key v _ _ _ Hf HndF) as [H1 H2].
  unfold update_value, find. rewrite Hl. simpl.
  apply repr_node with (cls := cls); [|exact H1].
  rewrite H2 by done. done.
Qed.

(** ** Appending components, on documents *)

Lemma repr_forest_app h a ta Fa b tb Fb :
  repr_forest h a ta Fa → repr_forest h b tb Fb →
  repr_forest h (a ++ b) (ta ++ tb) (Fa ++ Fb).
Proof.
  induction 1 as [|c t Fc cls cts F Hc Hf IH]; intros Hb; [done|].
  rewrite <- app_assoc. simpl. constructor; auto.
Qed.

Lemma new_components_repr comps : ∀ base h,
  (∀ i c, comps !! i = Some c →
          h !! (base + i) = Some (component_element (fst c) (snd c))) →
  repr_forest h (seq base (length comps)) (map component_tree comps)
    (seq base (length comps)).
Proof.
  induction comps as [|cp comps IH]; intros base h Hh; [constructor|].
  simpl. apply (repr_cons _ _ _ [base]).
  - unfold component_tree. apply repr_node with (cls := []); [|constructor].
    specialize (Hh 0 cp eq_refl). rewrite Nat.add_0_r in Hh. rewrite Hh.
    pose proof (component_element_leaf (fst cp) (snd cp)) as Hleaf.
    destruct (component_element _ _). simpl in *. by subst.
  - apply IH. intros i c Hc. specialize (Hh (S i) c Hc).
    by replace (S base + i) with (base + S i) by lia.
Qed.

Lemma append_section_repr h comps cls cts F :
  repr_forest h cls cts F → NoDup F →
  let h' := match find_child h cls "ScenarioComponents" with
            | Some s => append_components h s comps
            | None => h
            end in
  ∃ F', repr_forest h' cls
          (update_first (fun s => tag_is (tree_tag s) "ScenarioComponents")
             (tree_map_children (fun cs => cs ++ map component_tree comps)) cts) F'
        ∧ NoDup F'
        ∧ (∀ x, x ∈ F' → x ∈ F ∨ length h ≤ x)
        ∧ (∀ x, x < length h → x ∉ F → h' !! x = h !! x).
Proof.
  induction 1 as [|c t Fc cls cts F Hc Hf IH]; intros Hnd.
  { exists []. repeat split; [constructor | constructor | by left]. }
  pose proof Hnd as Hnd0.
  apply NoDup_app in Hnd as (HndC & Hdisj & HndF).
  pose proof (proj1 (repr_dom h) _ _ _ Hc) as HdomC.
  pose proof (proj2 (repr_dom h) _ _ _ Hf) as HdomF.
  inversion Hc as [l tg a tx tl ccls ccts Fcc Hl Hcf]; subst.
  cbn [find_child update_first tree_tag]. rewrite Hl. cbn [el_tag].
  destruct (tag_is tg "ScenarioComponents").
  - apply NoDup_cons in HndC as [HcF HndCC].
    rewrite (append_components_eq _ _ _ _ Hl).
    cbn [el_tag el_attrib el_text el_tail el_children].
    set (e' := Element tg a tx tl (ccls ++ seq (length h) (length comps))).
    set (new := map (fun c => component_element (fst c) (snd c)) comps).
    assert (c < length h) as Hclt by (apply HdomC; left).
    assert (∀ x, x < length h → x ≠ c → (<[c:=e']> h ++ new) !! x = h !! x) as Hold.
    { intros x Hx Hne. rewrite lookup_app_l by (by rewrite length_insert).
      by apply list_lookup_insert_ne. }
    exists ((c :: Fcc ++ seq (length h) (length comps)) ++ F).
    split; [|split; [|split]].
    + constructor.
      * cbn [tree_map_children].
        apply repr_node with (cls := ccls ++ seq (length h) (length comps)).
        -- rewrite lookup_app_l by (by rewrite length_insert).
           by apply list_lookup_insert_eq.
        -- apply repr_forest_app.
           ++ apply (proj2 (repr_frame h _)); [done|].
              intros x Hx. apply Hold; [apply HdomC; by right | by intros ->].
           ++ apply new_components_repr. intros i cp Hcp.
              rewrite lookup_app_r by (rewrite length_insert; lia).
              rewrite length_insert.
              replace (length h + i - length h) with i by lia.
              by apply (lookup_map (fun c => component_element (fst c) (snd c))).
      * apply (proj2 (repr_frame h _)); [done|].
        intros x Hx. apply Hold; [by apply HdomF|].
        intros ->. apply (Hdisj c); [left | done].
    + apply NoDup_app. split; [|split; [|done]].
      * apply NoDup_cons. split.
        -- intros [Hx|Hx%elem_of_seq]%elem_of_app; [done | lia].
        -- apply NoDup_app. split; [done|]. split; [|apply NoDup_seq].
           intros x Hx Hs%elem_of_seq.
           assert (x < length h) by (apply HdomC; by right). lia.
      * intros x Hx HxF.
        apply elem_of_cons in Hx as [->|Hx].
        { apply (Hdisj c); [left | done]. }
        apply elem_of_app in Hx as [Hx|Hx%elem_of_seq].
        { apply (Hdisj x); [by right | done]. }
        specialize (HdomF x HxF). lia.
    + intros x Hx. apply elem_of_app in Hx as [Hx|Hx].
      * apply elem_of_cons in Hx as [->|Hx].
        { left. apply elem_of_app. left. left. }
        apply elem_of_app in Hx as [Hx|Hx%elem_of_seq]; [|right; lia].
        left. apply elem_of_app. left. by right.
      * left. apply elem_of_app. by right.
    + intros x Hx HxF. apply Hold; [done|]. intros ->. apply HxF.
      apply elem_of_app. left. left.
  - destruct (IH HndF) as (F' & IH1 & IH2 & IH3 & IH4).
    exists ((c :: Fcc) ++ F'). split; [|split; [|split]].
    + constructor; [|done].
      apply (proj1 (repr_frame h _)); [done|].
      intros x Hx. apply IH4; [by apply HdomC|]. by apply Hdisj.
    + apply NoDup_app. split; [done|]. split; [|done].
      intros x Hx HxF'. destruct (IH3 x HxF') as [HxF|Hge].
      * by apply (Hdisj x).
      * specialize (HdomC x Hx). lia.
    + intros x Hx. apply elem_of_app in Hx as [Hx|Hx].
      * left. apply elem_of_app. by left.
      * destruct (IH3 x Hx) as [HxF|Hge]; [|by right].
        left. apply elem_of_app. by right.
    + intros x Hx HxF. apply IH4; [done|]. intros Hx'. apply HxF.
      apply elem_of_app. by right.
Qed.

Lemma append_repr h root t F comps :
  repr h root t F → NoDup F →
  ∃ F', repr (append_ssp_components h root comps) root
          (tree_append_components comps t) F'
        ∧ NoDup F'.
Proof.
  intros Hr Hnd.
  inversion Hr as [l tg a tx tl cls cts Fc Hl Hf]; subst.
  apply NoDup_cons in Hnd as [HrF HndF].
  destruct (append_section_repr h comps _ _ _ Hf HndF) as (F' & H1 & H2 & H3 & H4).
  assert (root < length h) as Hlt by (eapply lookup_lt_Some; eauto).
  unfold append_ssp_components, find. rewrite Hl. cbn [el_children].
  exists (root :: F'). split.
  - cbn [tree_append_components tree_map_children].
    apply repr_node with (cls := cls); [|exact H1].
    rewrite H4 by done. done.
  - apply NoDup_cons. split; [|done].
    intros Hin. destruct (H3 _ Hin) as [?|?]; [done | lia].
Qed.

(** What [create_scenario_config] returns is the patched document, made of
    objects that did not exist before. *)
Lemma create_scenario_config_repr h root t F name rcp ssp :
  repr h root t F → NoDup F →
  ∃ h' c F', create_scenario_config h root name rcp ssp = Some (h', c)
             ∧ repr h' c (scenario_document t name rcp ssp) F' ∧ NoDup F'.
Proof.
  intros Hr Hnd.
  destruct (proj1 (deepcopy_repr h) _ _ _ Hr (length h) h) as (h1 & c & F1 & Hd & Hr1 & Hnd1 & _).
  { eapply repr_size_bound; eauto. }
  { done. }
  unfold create_scenario_config. rewrite Hd.
  eexists _, c, F1. split; [reflexivity|]. split; [|done].
  destruct (update_value_names
              (_update_policy_target (_update_scenario_name h1 c name) c rcp ssp)
              c name rcp ssp) as (_ & _ & ->).
  destruct (update_value_names (_update_scenario_name h1 c name)
              c name rcp ssp) as (_ & -> & _).
  destruct (update_value_names h1 c name rcp ssp) as (-> & _ & _).
  unfold scenario_document.
  repeat (apply update_value_repr; [|done]). done.
Qed.

(** ** The cache of the extractor *)

Lemma cache_lookup_elem {V} k (c : list (string * V)) v :
  cache_lookup k c = Some v → (k, v) ∈ c.
Proof.
  induction c as [|[k' v'] c IH]; simpl; [discriminate|].
  destruct (String.eqb k' k) eqn:Hk.
  - apply string_eqb_true in Hk as ->. intros [= ->]. left.
  - intros H. right. auto.
Qed.

Lemma cache_remove_subset {V} k (c : list (string * V)) x :
  x ∈ cache_remove k c → x ∈ c.
Proof.
  induction c as [|[k' v'] c IH]; simpl; [done|].
  destruct (String.eqb k' k).
  - intros H. by right.
  - intros [->|H]%elem_of_cons; [left | right; auto].
Qed.

Lemma lru_call_coherent {V} n (f : string → V) k c :
  Forall (fun kv => snd kv = f (fst kv)) c →
  snd (lru_call n f k c) = f k
  ∧ Forall (fun kv => snd kv = f (fst kv)) (fst (lru_call n f k c)).
Proof.
  intros Hc. unfold lru_call.
  destruct (cache_lookup k c) as [v|] eqn:Hl; simpl.
  - rewrite Forall_forall in Hc.
    pose proof (Hc _ (cache_lookup_elem _ _ _ Hl)) as Hv. simpl in Hv.
    split; [done|]. constructor; [done|].
    apply Forall_forall. intros x Hx. apply Hc. eapply cache_remove_subset; eauto.
  - split; [done|]. apply Forall_take. by constructor.
Qed.

(** ** One scenario *)

Lemma map_pair_id {A B} (l : list (A * B)) :
  map (fun np => (fst np, snd np)) l = l.
Proof. induction l as [|[a b] l IH]; simpl; [done | by rewrite IH]. Qed.

Lemma upward_top (h : list element) : upward (length h) h.
Proof.
  intros l e Hle He. apply lookup_lt_Some in He. lia.
Qed.

Lemma repr_prefix h h' root t F :
  repr h root t F → take (length h) h' = h → repr h' root t F.
Proof.
  intros Hr Ht. apply (proj1 (repr_frame h h')); [done|].
  intros x Hx. pose proof (proj1 (repr_dom h) _ _ _ Hr x Hx) as Hlt.
  transitivity (take (length h) h' !! x); [|by rewrite Ht].
  symmetry. by apply lookup_take_lt.
Qed.

(** The outcome of one scenario, the file it writes and what it leaves
    behind depend on the template document only. *)
Lemma single_scenario_spec env g t sc out w :
  template_is g w t → cache_ok env g w →
  snd (_generate_single_scenario env g sc out w)
  = match scenario_name sc with
    | None => Raised
    | Some _ => Returned (fst <$> scenario_file env g t sc out)
    end
  ∧ files (fst (_generate_single_scenario env g sc out w))
    = write_file (scenario_file env g t sc out) (files w)
  ∧ template_is g (fst (_generate_single_scenario env g sc out w)) t
  ∧ cache_ok env g (fst (_generate_single_scenario env g sc out w)).
Proof.
  intros (F & Hr & Hnd) Hcache.
  unfold _generate_single_scenario, scenario_file.
  destruct (scenario_name sc) as [name|] eqn:Hname; simpl.
  2:{ repeat split; [by exists F | done]. }
  destruct (create_scenario_config_repr _ _ _ _ name (sc_rcp sc) (sc_ssp sc) Hr Hnd)
    as (h1 & c & F1 & Hc & Hr1 & Hnd1).
  rewrite Hc.
  destruct (create_frame (length (heap w)) _ _ _ _ _ _ _ (Nat.le_refl _)
              (upward_top _) Hc) as (Ht1 & Hup1 & Hge1 & Hlen1).
  rewrite firstn_all in Ht1.
  unfold cached_extract.
  destruct (lru_call_coherent 10
              (extract_ssp_components (xml_source env) (ssp_files_directory g))
              (sc_ssp sc) (lru w) Hcache) as [Hv Hcache1].
  destruct (lru_call 10 _ (sc_ssp sc) (lru w)) as [lru1 comps]. simpl in Hv, Hcache1.
  subst comps.
  destruct (extract_ssp_components _ _ (sc_ssp sc)) as [|cp comps].
  { simpl. repeat split; [|done]. exists F. split; [|done]. by eapply repr_prefix. }
  rewrite map_pair_id. cbv beta iota zeta.
  destruct (append_repr _ _ _ _ (cp :: comps) Hr1 Hnd1) as (F2 & Hr2 & Hnd2).
  destruct (append_frame (length (heap w)) h1 c (cp :: comps) Hup1 Hge1)
    as (Ht2 & Hup2 & Hlen2).
  assert (template_is g
            (World (append_ssp_components h1 c (cp :: comps)) lru1 (files w)) t)
    as Htpl.
  { exists F. split; [|done]. simpl. eapply repr_prefix; [done|].
    rewrite Ht2, Ht1. done. }
  rewrite (reify_document _ _ _ _ Hr2 Hnd2).
  destruct (can_write env (out, name +:+ ".xml")); simpl;
    repeat split; first [done | by destruct Htpl as (F' & ? & ?); exists F'].
Qed.

(** ** The sequential driver *)

Lemma sequential_spec env g t out scenarios : ∀ w,
  template_is g w t → cache_ok env g w →
  snd (_generate_sequential env g scenarios out w)
  = omap (fun sc => fst <$> scenario_file env g t sc out) scenarios
  ∧ files (fst (_generate_sequential env g scenarios out w))
    = fold_left (fun fs sc => write_file (scenario_file env g t sc out) fs)
        scenarios (files w)
  ∧ template_is g (fst (_generate_sequential env g scenarios out w)) t
  ∧ cache_ok env g (fst (_generate_sequential env g scenarios out w)).
Proof.
  induction scenarios as [|sc scenarios IH]; intros w Ht Hc; [done|].
  destruct (single_scenario_spec env g t sc out w Ht Hc) as (H1 & H2 & H3 & H4).
  cbn [_generate_sequential omap list_omap fold_left].
  destruct (_generate_single_scenario env g sc out w) as [w1 r].
  cbn [fst snd] in *.
  destruct (IH w1 H3 H4) as (I1 & I2 & I3 & I4).
  destruct (_generate_sequential env g scenarios out w1) as [w2 fs].
  cbn [fst snd] in *. subst r fs. rewrite <- H2.
  repeat split; try done.
  unfold scenario_file.
  destruct (scenario_name sc); [|done].
  by destruct (scenario_file env g t sc out) as [[p c]|].
Qed.

(** ** The objects of a parsed document *)

Lemma alloc_tree_repr t : ∀ h,
  ∃ F ext, fst (alloc_tree t h) = h ++ ext
           ∧ repr (fst (alloc_tree t h)) (snd (alloc_tree t h)) t F
           ∧ NoDup F ∧ ∀ x, x ∈ F → length h ≤ x.
Proof.
  induction t as [tg a tx tl cs IH] using tree_induction. intros h.
  assert (∃ F ext, fst (alloc_all alloc_tree cs h) = h ++ ext
            ∧ repr_forest (fst (alloc_all alloc_tree cs h))
                (snd (alloc_all alloc_tree cs h)) cs F
            ∧ NoDup F ∧ ∀ x, x ∈ F → length h ≤ x)
    as (F & ext & He & Hr & Hnd & Hfresh).
  { clear tg a tx tl. revert h.
    induction IH as [|c cs Hc _ IHcs]; intros h.
    - exists [], []. simpl. rewrite app_nil_r. repeat split; try constructor.
      intros x Hx. by apply elem_of_nil in Hx.
    - destruct (Hc h) as (F1 & ext1 & He1 & Hr1 & Hnd1 & Hf1).
      cbn [alloc_all]. destruct (alloc_tree c h) as [h1 l]. cbn [fst snd] in *.
      subst h1.
      destruct (IHcs (h ++ ext1)) as (F2 & ext2 & He2 & Hr2 & Hnd2 & Hf2).
      fold (alloc_all alloc_tree) in *.
      destruct (alloc_all alloc_tree cs (h ++ ext1)) as [h2 ls].
      cbn [fst snd] in *. subst h2.
      exists (F1 ++ F2), (ext1 ++ ext2). rewrite app_assoc.
      repeat split.
      + constructor; [by apply repr_extend | done].
      + apply NoDup_app. repeat split; [done| |done].
        intros x Hx1 Hx2.
        pose proof (proj1 (repr_dom _) _ _ _ Hr1 x Hx1).
        specialize (Hf2 x Hx2). lia.
      + intros x [Hx|Hx]%elem_of_app; [auto|].
        specialize (Hf2 x Hx). rewrite length_app in Hf2. lia. }
  cbn [alloc_tree]. destruct (alloc_all alloc_tree cs h) as [h1 ls].
  cbn [fst snd] in *. subst h1. unfold alloc. cbn [fst snd].
  exists (length (h ++ ext) :: F), (ext ++ [Element tg a tx tl ls]).
  rewrite app_assoc.
  assert (∀ x, x ∈ F → x < length (h ++ ext)) as Hdom
    by apply (proj2 (repr_dom _) _ _ _ Hr).
  repeat split.
  - apply repr_node with (cls := ls).
    + by apply list_lookup_middle.
    + by apply repr_forest_extend.
  - constructor; [|done]. intros Hin. specialize (Hdom _ Hin). lia.
  - intros x [->|Hx]%elem_of_cons; [|auto]. rewrite length_app. lia.
Qed.

Lemma new_generator_ready env p dir g w :
  new_generator env p dir = Some (g, w) →
  (∃ t, _load_template env "configuration_reuse100.xml" = Some t
        ∧ template_is g w t)
  ∧ cache_ok env g w ∧ parameters g = p ∧ ssp_files_directory g = dir
  ∧ files w = ∅.
Proof.
  unfold new_generator.
  destruct (_load_template env _) as [t|]; [|discriminate].
  destruct (alloc_tree_repr t []) as (F & ext & _ & Hr & Hnd & _).
  destruct (alloc_tree t []) as [h root]. intros [= <- <-].
  repeat split; try done.
  - exists t. split; [done|]. by exists F.
  - constructor.
Qed.

(* ====================================================================== *)
(** * Policy codes and scenario names *)
(* ====================================================================== *)

(** C1.  The policy-variant code: under emissions pathway "6p0" the ids
    SSP1..SSP5 give "1", "235", "235", "4" and the fallback "0"; under every
    other emissions pathway SSP2 and SSP3 give "23" and SSP5 gives "5"; an
    id outside SSP1..SSP5 gives "0" whatever the emissions pathway. *)
Theorem spa_code_table (ssp rcp : string) :
  (rcp = "6p0" →
     _get_spa_code "SSP1" rcp = "1" ∧ _get_spa_code "SSP2" rcp = "235"
     ∧ _get_spa_code "SSP3" rcp = "235" ∧ _get_spa_code "SSP4" rcp = "4"
     ∧ _get_spa_code "SSP5" rcp = "0")
  ∧ (rcp ≠ "6p0" →
     _get_spa_code "SSP2" rcp = "23" ∧ _get_spa_code "SSP3" rcp = "23"
     ∧ _get_spa_code "SSP5" rcp = "5")
  ∧ (ssp ∉ ["SSP1"; "SSP2"; "SSP3"; "SSP4"; "SSP5"] → _get_spa_code ssp rcp = "0").
Proof.
  split; [|split].
  - intros ->. by vm_compute.
  - intros Hne. apply string_eqb_false in Hne. unfold _get_spa_code. rewrite Hne.
    by vm_compute.
  - intros Hssp. unfold _get_spa_code.
    assert (∀ k, k ∈ ["SSP1"; "SSP2"; "SSP3"; "SSP4"; "SSP5"] → k ≠ ssp) as Hk
      by (intros k Hin ->; done).
    destruct (String.eqb rcp "6p0");
      unfold spa_mapping_6p0, spa_mapping_standard;
      rewrite !lookup_insert_ne by (apply Hk; set_solver);
      by rewrite lookup_empty.
Qed.

Lemma spa_code_table_witness :
  _get_spa_code "SSP5" "6p0" = "0" ∧ _get_spa_code "SSP5" "8p5" = "5"
  ∧ _get_spa_code "SSP9" "4p5" = "0".
Proof.
  split; [|split].
  - apply (proj1 (spa_code_table "SSP5" "6p0") eq_refl).
  - apply (proj1 (proj2 (spa_code_table "SSP5" "8p5"))). discriminate.
  - apply (proj2 (proj2 (spa_code_table "SSP9" "4p5"))).
    rewrite !elem_of_cons, elem_of_nil. intros H.
    repeat (destruct H as [H|H]; [discriminate H|]). exact H.
Defined.

(** C4, as the specification words it, fails: the supply initial is taken
    as it is and is not turned to upper case (and a supply value without a
    first character has no name at all). *)
Lemma scenario_name_not_uppercased :
  generate_scenario_name "SSP1" "2p6" 0 "Basic" "low" "Regulatory"
  = Some "SSP1_2p6_Basic_l_Reg_PR0"
  ∧ spec_scenario_name "SSP1" "2p6" 0 "Basic" "low" "Regulatory"
    = "SSP1_2p6_Basic_L_Reg_PR0"
  ∧ generate_scenario_name "SSP1" "2p6" 0 "Basic" "low" "Regulatory"
    ≠ Some (spec_scenario_name "SSP1" "2p6" 0 "Basic" "low" "Regulatory")
  ∧ generate_scenario_name "SSP1" "2p6" 0 "Basic" "" "Regulatory" = None.
Proof. repeat split. vm_compute. discriminate. Qed.

(** C4, amended.  For a supply value with a first character [c] the name
    is "{ssp}_{rcp}_{TechShort}_{c}_{AllocShort}_PR{rate}" with [c] as it
    stands; TechShort is "Tech" exactly for the tier "Advanced" and "Basic"
    otherwise, AllocShort is "Reg" exactly for "Regulatory" and "Mkt"
    otherwise, and the rate is printed in decimal.  For the supply values
    "Low", "Medium" and "High" this is the name with the upper-case initial.
    The empty supply value has no name. *)
Theorem scenario_name_format (ssp rcp : string) (rate : Z)
    (tech supply allocation : string) :
  (∀ c rest, supply = String c rest →
     ∃ tech_short alloc_short,
       (tech = "Advanced" → tech_short = "Tech")
       ∧ (tech ≠ "Advanced" → tech_short = "Basic")
       ∧ (allocation = "Regulatory" → alloc_short = "Reg")
       ∧ (allocation ≠ "Regulatory" → alloc_short = "Mkt")
       ∧ generate_scenario_name ssp rcp rate tech supply allocation
         = Some (ssp +:+ "_" +:+ rcp +:+ "_" +:+ tech_short +:+ "_"
                 +:+ String c EmptyString +:+ "_" +:+ alloc_short
                 +:+ "_PR" +:+ PyStr.str_of_int rate))
  ∧ (supply ∈ ["Low"; "Medium"; "High"] →
     generate_scenario_name ssp rcp rate tech supply allocation
     = Some (spec_scenario_name ssp rcp rate tech supply allocation))
  ∧ (supply = "" →
     generate_scenario_name ssp rcp rate tech supply allocation = None).
Proof.
  split; [|split].
  - intros c rest ->.
    exists (if String.eqb tech "Advanced" then "Tech" else "Basic"),
           (if String.eqb allocation "Regulatory" then "Reg" else "Mkt").
    repeat split.
    + intros ->. reflexivity.
    + intros H%string_eqb_false. by rewrite H.
    + intros ->. reflexivity.
    + intros H%string_eqb_false. by rewrite H.
  - rewrite !elem_of_cons, elem_of_nil.
    intros [->|[->|[->|[]]]]; reflexivity.
  - intros ->. reflexivity.
Qed.

Lemma scenario_name_format_witness :
  generate_scenario_name "SSP2" "4p5" 25 "Advanced" "Medium" "Regulatory"
  = Some "SSP2_4p5_Tech_M_Reg_PR25"
  ∧ generate_scenario_name "SSP2" "4p5" 25 "Advanced" "Medium" "Regulatory"
    = Some (spec_scenario_name "SSP2" "4p5" 25 "Advanced" "Medium" "Regulatory")
  ∧ generate_scenario_name "SSP2" "4p5" 25 "Advanced" "" "Regulatory" = None.
Proof.
  split; [|split].
  - destruct (proj1 (scenario_name_format "SSP2" "4p5" 25 "Advanced" "Medium"
                       "Regulatory") "M"%char "edium" eq_refl)
      as (ts & als & Ht & _ & Ha & _ & Hn).
    rewrite Hn, (Ht eq_refl), (Ha eq_refl). reflexivity.
  - apply (proj1 (proj2 (scenario_name_format "SSP2" "4p5" 25 "Advanced" "Medium"
                           "Regulatory"))).
    right. left.
  - apply (proj2 (proj2 (scenario_name_format "SSP2" "4p5" 25 "Advanced" ""
                           "Regulatory"))).
    reflexivity.
Defined.

Lemma scenario_eqb_eq a b : scenario_eqb a b = true → a = b.
Proof.
  unfold scenario_eqb. rewrite !andb_true_iff, !string_eqb_true, Z.eqb_eq.
  destruct a, b. simpl. intros [[[[[-> ->] ->] ->] ->] ->]. reflexivity.
Qed.

Lemma option_string_eqb_refl a : option_string_eqb a a = true.
Proof. destruct a as [x|]; simpl; [by apply string_eqb_true | done]. Qed.

Lemma names_distinct_sound l a b :
  names_distinct l = true → a ∈ l → b ∈ l →
  scenario_name a = scenario_name b → a = b.
Proof.
  unfold names_distinct. rewrite forallb_forall.
  intros Hall Ha Hb Hn.
  specialize (Hall (a, scenario_name a)).
  rewrite forallb_forall in Hall.
  assert (∀ x, x ∈ l → In (x, scenario_name x)
                          (map (fun sc => (sc, scenario_name sc)) l)) as Hin.
  { intros x Hx. apply in_map_iff. exists x. split; [done|].
    by apply list_elem_of_In. }
  specialize (Hall (Hin a Ha) (b, scenario_name b) (Hin b Hb)).
  simpl in Hall. rewrite Hn, option_string_eqb_refl in Hall.
  by apply scenario_eqb_eq.
Qed.

Lemma elem_of_product6 sc l1 l2 l3 l4 l5 l6 :
  sc ∈ product6 l1 l2 l3 l4 l5 l6 ↔
  sc_ssp sc ∈ l1 ∧ sc_rcp sc ∈ l2 ∧ sc_pr_rate sc ∈ l3 ∧ sc_tech sc ∈ l4
  ∧ sc_supply sc ∈ l5 ∧ sc_allocation sc ∈ l6.
Proof.
  unfold product6. rewrite !list_elem_of_In. split.
  - intros H.
    apply in_flat_map in H as (a & Ha & H). apply in_flat_map in H as (b & Hb & H).
    apply in_flat_map in H as (c & Hc & H). apply in_flat_map in H as (d & Hd & H).
    apply in_flat_map in H as (e & He & H). apply in_map_iff in H as (f & <- & Hf).
    done.
  - intros (Ha & Hb & Hc & Hd & He & Hf).
    apply in_flat_map. exists (sc_ssp sc). split; [done|].
    apply in_flat_map. exists (sc_rcp sc). split; [done|].
    apply in_flat_map. exists (sc_pr_rate sc). split; [done|].
    apply in_flat_map. exists (sc_tech sc). split; [done|].
    apply in_flat_map. exists (sc_supply sc). split; [done|].
    apply in_map_iff. exists (sc_allocation sc). split; [by destruct sc | done].
Qed.

(** C5.  Over the six default lists the name generator gives every
    scenario a name, and two scenarios with the same name are the same
    scenario. *)
Theorem scenario_names_injective (sc1 sc2 : scenario) :
  in_domain default_parameters sc1 → in_domain default_parameters sc2 →
  is_Some (scenario_name sc1)
  ∧ (scenario_name sc1 = scenario_name sc2 → sc1 = sc2).
Proof.
  intros H1 H2. split.
  - destruct H1 as (_ & _ & _ & _ & Hs & _).
    unfold scenario_name, generate_scenario_name. simpl in Hs.
    rewrite !elem_of_cons, elem_of_nil in Hs.
    destruct Hs as [->|[->|[->|[]]]]; eauto.
  - apply (names_distinct_sound (_generate_combinations default_parameters None)).
    + vm_compute. reflexivity.
    + unfold _generate_combinations. apply elem_of_product6. exact H1.
    + unfold _generate_combinations. apply elem_of_product6. exact H2.
Qed.

Lemma scenario_names_injective_witness :
  let sc1 := {| sc_ssp := "SSP1"; sc_rcp := "2p6"; sc_pr_rate := 0;
                sc_tech := "Basic"; sc_supply := "Low";
                sc_allocation := "Market-driven" |} in
  let sc2 := {| sc_ssp := "SSP1"; sc_rcp := "2p6"; sc_pr_rate := 0;
                sc_tech := "Basic"; sc_supply := "Low";
                sc_allocation := "Regulatory" |} in
  in_domain default_parameters sc1 ∧ in_domain default_parameters sc2
  ∧ is_Some (scenario_name sc1)
  ∧ (scenario_name sc1 = scenario_name sc2 → sc1 = sc2).
Proof.
  intros sc1 sc2.
  assert (in_domain default_parameters sc1) as H1.
  { unfold in_domain. simpl. repeat split; repeat first [by left | right]. }
  assert (in_domain default_parameters sc2) as H2.
  { unfold in_domain. simpl. repeat split; repeat first [by left | right]. }
  split; [exact H1|]. split; [exact H2|].
  exact (scenario_names_injective sc1 sc2 H1 H2).
Defined.

(* ====================================================================== *)
(** * The template manager *)
(* ====================================================================== *)

(** C3, as the specification words it, fails: an entry whose name carries
    the marker but whose value does not open a comment becomes a data
    node. *)
Lemma marker_alone_is_not_a_comment :
  append_ssp_components demo_store 1 [("COMMENT_note", "plain text")] !! 2
  = Some (Element (Tag "Value") [("name", "COMMENT_note")] (Some "plain text") None [])
  ∧ spec_component_element "COMMENT_note" "plain text"
    = Element CommentTag [] (Some " plain text ") None []
  ∧ append_ssp_components demo_store 1 [("COMMENT_note", "plain text")] !! 2
    ≠ Some (spec_component_element "COMMENT_note" "plain text").
Proof. repeat split. vm_compute. discriminate. Qed.

(** C3, amended.  When the document has a components region,
    [append_ssp_components] adds one new object for each entry, in the
    order of the entries, at the end of the children of the region, and
    changes nothing else; entries are not compared with what the region
    holds already.  An entry becomes a comment node exactly when its name
    starts with "COMMENT_" and its value starts with "<!--": the comment
    text is the value with every "<!--" and "-->" taken out, stripped and
    put between two spaces, and the name is not used.  Every other entry
    becomes a [Value] node with the name as attribute and the value as
    text. *)
Theorem append_ssp_components_appends h root s e (components : list (string * string)) :
  find h root "ScenarioComponents" = Some s → h !! s = Some e →
  let h' := append_ssp_components h root components in
  length h' = length h + length components
  ∧ h' !! s = Some (Element (el_tag e) (el_attrib e) (el_text e) (el_tail e)
                      (el_children e ++ seq (length h) (length components)))
  ∧ (∀ i name path, components !! i = Some (name, path) →
       h' !! (length h + i)
       = Some (if PyStr.startswith name "COMMENT_" && PyStr.startswith path "<!--"
               then Element CommentTag []
                      (Some (" " +:+ PyStr.strip
                                       (PyStr.replace (PyStr.replace path "<!--" "")
                                          "-->" "") +:+ " "))
                      None []
               else Element (Tag "Value") [("name", name)] (Some path) None []))
  ∧ (∀ x, x < length h → x ≠ s → h' !! x = h !! x).
Proof.
  intros Hs He h'. subst h'. unfold append_ssp_components. rewrite Hs.
  rewrite (append_components_eq _ _ _ _ He).
  assert (s < length h) as Hlt by (eapply lookup_lt_Some; eauto).
  repeat split.
  - rewrite length_app, length_insert, length_map. done.
  - rewrite lookup_app_l by (by rewrite length_insert).
    by apply list_lookup_insert_eq.
  - intros i name path Hi.
    rewrite lookup_app_r by (rewrite length_insert; lia).
    rewrite length_insert. replace (length h + i - length h) with i by lia.
    by rewrite (lookup_map (fun c => component_element (fst c) (snd c)) _ _ _ Hi).
  - intros x Hx Hne. rewrite lookup_app_l by (by rewrite length_insert).
    by apply list_lookup_insert_ne.
Qed.

Lemma append_ssp_components_appends_witness :
  let comps := [("COMMENT_ssp1", "<!-- SSP1 -->"); ("climate", "a.xml");
                ("climate", "b.xml")] in
  let h' := append_ssp_components demo_store 1 comps in
  length h' = 5
  ∧ children_of h' 0 = [2; 3; 4]
  ∧ h' !! 2 = Some (Element CommentTag [] (Some " SSP1 ") None [])
  ∧ h' !! 3 = Some (Element (Tag "Value") [("name", "climate")] (Some "a.xml") None [])
  ∧ h' !! 4 = Some (Element (Tag "Value") [("name", "climate")] (Some "b.xml") None [])
  ∧ h' !! 1 = demo_store !! 1.
Proof.
  intros comps h'.
  destruct (append_ssp_components_appends demo_store 1 0
              (Element (Tag "ScenarioComponents") [] None None []) comps
              eq_refl eq_refl) as (H1 & H2 & H3 & H4).
  fold h' in H1, H2, H3, H4.
  split; [exact H1|]. split; [unfold children_of; by rewrite H2|].
  split; [exact (H3 0 _ _ eq_refl)|].
  split; [exact (H3 1 _ _ eq_refl)|].
  split; [exact (H3 2 _ _ eq_refl)|].
  apply H4; [simpl; lia | discriminate].
Defined.

(** C2.  The template is never changed.  Let the template root stand for
    the document [t] in the store.  After any run of calls of
    [create_scenario_config] and of [append_ssp_components] on documents
    that were returned, every object that existed before is as it was, the
    template root still stands for [t], and a call of
    [create_scenario_config] returns the same document as the same call
    made before the run. *)
Theorem template_never_mutated h0 root t F (calls : list manager_call) :
  repr h0 root t F → NoDup F →
  let h := fst (run_calls root calls (h0, [])) in
  take (length h0) h = h0
  ∧ repr h root t F
  ∧ reify (length h) h root = reify (length h0) h0 root
  ∧ ∀ name rcp ssp,
      ∃ h1 c1 h2 c2,
        create_scenario_config h0 root name rcp ssp = Some (h1, c1)
        ∧ create_scenario_config h root name rcp ssp = Some (h2, c2)
        ∧ reify (length h2) h2 c2 = reify (length h1) h1 c1
        ∧ reify (length h1) h1 c1 = Some (scenario_document t name rcp ssp).
Proof.
  intros Hr Hnd h.
  destruct (run_calls_frame root (length h0) calls h0 [] (Nat.le_refl _)
              (upward_top h0) (Forall_nil_2 _)) as (Ht & _ & _).
  fold h in Ht. rewrite firstn_all in Ht.
  assert (repr h root t F) as Hr' by (by eapply repr_prefix).
  split; [done|]. split; [done|]. split.
  - by rewrite (reify_document _ _ _ _ Hr Hnd), (reify_document _ _ _ _ Hr' Hnd).
  - intros name rcp ssp.
    destruct (create_scenario_config_repr _ _ _ _ name rcp ssp Hr Hnd)
      as (h1 & c1 & F1 & Hc1 & Hr1 & Hnd1).
    destruct (create_scenario_config_repr _ _ _ _ name rcp ssp Hr' Hnd)
      as (h2 & c2 & F2 & Hc2 & Hr2 & Hnd2).
    exists h1, c1, h2, c2. split; [done|]. split; [done|].
    by rewrite (reify_document _ _ _ _ Hr1 Hnd1), (reify_document _ _ _ _ Hr2 Hnd2).
Qed.

Lemma template_never_mutated_witness :
  let h0 := fst (alloc_tree demo_template []) in
  let root := snd (alloc_tree demo_template []) in
  let calls := [CreateConfig "A" "6p0" "SSP5";
                AppendComponents 0 [("climate", "a.xml")];
                CreateConfig "B" "2p6" "SSP2";
                AppendComponents 0 [("COMMENT_x", "<!-- x -->")]] in
  let h := fst (run_calls root calls (h0, [])) in
  take (length h0) h = h0
  ∧ reify (length h) h root = reify (length h0) h0 root
  ∧ ∃ h1 c1 h2 c2,
      create_scenario_config h0 root "C" "4p5" "SSP1" = Some (h1, c1)
      ∧ create_scenario_config h root "C" "4p5" "SSP1" = Some (h2, c2)
      ∧ reify (length h2) h2 c2 = reify (length h1) h1 c1
      ∧ reify (length h1) h1 c1
        = Some (scenario_document demo_template "C" "4p5" "SSP1").
Proof.
  intros h0 root calls h.
  destruct (alloc_tree_repr demo_template []) as (F & ext & _ & Hr & Hnd & _).
  destruct (template_never_mutated h0 root demo_template F calls Hr Hnd)
    as (H1 & _ & H3 & H4).
  split; [exact H1|]. split; [exact H3|]. exact (H4 "C" "4p5" "SSP1").
Defined.

(** ** Documents without a region *)

Lemma find_child_none h cls cts F name :
  repr_forest h cls cts F →
  find_child h cls name = None ↔
  existsb (fun s => tag_is (tree_tag s) name) cts = false.
Proof.
  induction 1 as [|c t Fc cls cts F Hc Hf IH]; [done|].
  inversion Hc as [l tg a tx tl ccls ccts Fcc Hl Hcf]; subst.
  simpl. rewrite Hl. simpl. destruct (tag_is tg name); [|exact IH].
  split; discriminate.
Qed.

Lemma find_none h root t F name :
  repr h root t F → find h root name = None ↔ has_child t name = false.
Proof.
  intros Hr. inversion Hr as [l tg a tx tl cls cts Fc Hl Hf]; subst.
  unfold find, has_child. rewrite Hl. simpl. by eapply find_child_none.
Qed.

Lemma update_first_tags P f ts name :
  (∀ t, tree_tag (f t) = tree_tag t) →
  existsb (fun s => tag_is (tree_tag s) name) (update_first P f ts)
  = existsb (fun s => tag_is (tree_tag s) name) ts.
Proof.
  intros Hf. induction ts as [|t ts IH]; [done|]. simpl.
  destruct (P t); simpl; [by rewrite Hf | by rewrite IH].
Qed.

Lemma tree_set_value_has_child section key v t name :
  has_child (tree_set_value section key v t) name = has_child t name.
Proof.
  destruct t as [tg a tx tl cs]. unfold has_child. simpl.
  apply update_first_tags. by intros [].
Qed.

Lemma update_first_none P f ts :
  existsb P ts = false → update_first P f ts = ts.
Proof.
  induction ts as [|t ts IH]; [done|]. simpl.
  destruct (P t); [discriminate|]. simpl. intros H. by rewrite IH.
Qed.

Lemma tree_append_without_region comps t :
  has_child t "ScenarioComponents" = false → tree_append_components comps t = t.
Proof.
  destruct t as [tg a tx tl cs]. unfold has_child, tree_append_components. simpl.
  intros H. by rewrite update_first_none.
Qed.

Lemma scenario_document_has_child t name rcp ssp region :
  has_child (scenario_document t name rcp ssp) region = has_child t region.
Proof. unfold scenario_document. by rewrite !tree_set_value_has_child. Qed.

(** C10.  Without a components region [append_ssp_components] hands the
    store back as it was, whatever the entries.  A scenario whose template
    has no such region still ends in its file, which holds the patched
    template with nothing appended, and the sequential driver reports it. *)
Theorem missing_region_is_skipped env g t sc out w name :
  template_is g w t → cache_ok env g w →
  find (heap w) (template_root g) "ScenarioComponents" = None →
  scenario_name sc = Some name →
  extract_ssp_components (xml_source env) (ssp_files_directory g) (sc_ssp sc) ≠ [] →
  can_write env (out, name +:+ ".xml") = true →
  (∀ h root components,
     find h root "ScenarioComponents" = None →
     append_ssp_components h root components = h)
  ∧ snd (_generate_single_scenario env g sc out w)
    = Returned (Some (out, name +:+ ".xml"))
  ∧ files (fst (_generate_single_scenario env g sc out w)) !! (out, name +:+ ".xml")
    = Some (tostring env (scenario_document t name (sc_rcp sc) (sc_ssp sc)))
  ∧ snd (_generate_sequential env g [sc] out w) = [(out, name +:+ ".xml")].
Proof.
  intros Ht Hc Hfind Hname Hcomps Hwrite.
  assert (has_child t "ScenarioComponents" = false) as Hno.
  { destruct Ht as (F & Hr & _). by apply (find_none _ _ _ _ _ Hr). }
  destruct (single_scenario_spec env g t sc out w Ht Hc) as (H1 & H2 & _ & _).
  assert (scenario_file env g t sc out
          = Some ((out, name +:+ ".xml"),
                  tostring env (scenario_document t name (sc_rcp sc) (sc_ssp sc))))
    as Hfile.
  { unfold scenario_file. rewrite Hname.
    destruct (extract_ssp_components _ _ _) as [|cp comps]; [done|].
    rewrite Hwrite, tree_append_without_region; [done|].
    by rewrite scenario_document_has_child. }
  rewrite Hname, Hfile in H1. rewrite Hfile in H2. simpl in H1, H2.
  split; [|split; [|split]].
  - intros h root components Hf. unfold append_ssp_components. by rewrite Hf.
  - done.
  - rewrite H2. apply lookup_insert_eq.
  - simpl. destruct (_generate_single_scenario env g sc out w) as [w1 r].
    simpl in H1. by subst r.
Qed.

(* ====================================================================== *)
(** * The batch drivers *)
(* ====================================================================== *)

Lemma single_scenario_set_pool env p g sc out w :
  _generate_single_scenario (set_pool env p) g sc out w
  = _generate_single_scenario env g sc out w.
Proof. reflexivity. Qed.

Lemma sequential_set_pool env p g out scenarios : ∀ w,
  _generate_sequential (set_pool env p) g scenarios out w
  = _generate_sequential env g scenarios out w.
Proof.
  induction scenarios as [|sc scenarios IH]; intros w; [done|].
  cbn [_generate_sequential]. rewrite single_scenario_set_pool.
  destruct (_generate_single_scenario env g sc out w) as [w1 r]. by rewrite IH.
Qed.

(** C9.  [generate_all_configs] goes through the pool exactly when
    concurrency is asked for and there are at least two combinations; the
    pool then gets [min 8 n] workers and one call for each combination.  In
    every other case the result is that of the sequential driver and does
    not depend on the pool at all. *)
Theorem concurrency_dispatch env g out ssp_filter (use_concurrency : bool) w :
  mkdir_ok env out = true →
  let combos := _generate_combinations (parameters g) ssp_filter in
  (use_concurrency = true → 2 ≤ length combos →
     generate_all_configs env g out ssp_filter use_concurrency w
     = _generate_concurrent env g combos out w
     ∧ _generate_concurrent env g combos out w
       = Some (fst (pool env (Nat.min 8 (length combos))
                      (map (fun sc => _generate_single_scenario env g sc out) combos) w),
               collect_completed
                 (snd (pool env (Nat.min 8 (length combos))
                         (map (fun sc => _generate_single_scenario env g sc out) combos)
                         w))))
  ∧ (use_concurrency = false ∨ length combos ≤ 1 →
     generate_all_configs env g out ssp_filter use_concurrency w
     = Some (_generate_sequential env g combos out w)
     ∧ ∀ p, generate_all_configs (set_pool env p) g out ssp_filter use_concurrency w
            = generate_all_configs env g out ssp_filter use_concurrency w).
Proof.
  intros Hmk combos. unfold generate_all_configs. cbn [mkdir_ok set_pool].
  rewrite Hmk. fold combos. split.
  - intros -> Hlen. simpl.
    destruct (Nat.ltb_spec 1 (length combos)) as [_|?]; [|lia].
    split; [done|]. unfold _generate_concurrent.
    destruct (Nat.eqb_spec (Nat.min 8 (length combos)) 0) as [?|_]; [lia|].
    by destruct (pool env _ _ w).
  - intros Hseq.
    assert (use_concurrency && (1 <? length combos) = false) as ->.
    { destruct Hseq as [->|Hlen]; [done|].
      destruct (Nat.ltb_spec 1 (length combos)); [lia|]. by destruct use_concurrency. }
    split; [done|]. intros p. by rewrite sequential_set_pool.
Qed.

Lemma single_scenario_path env g sc out w path :
  snd (_generate_single_scenario env g sc out w) = Returned (Some path) →
  ∃ name, scenario_name sc = Some name ∧ path = (out, name +:+ ".xml").
Proof.
  unfold _generate_single_scenario.
  destruct (scenario_name sc) as [name|]; [|discriminate].
  destruct (create_scenario_config _ _ _ _ _) as [[h1 c]|]; [|discriminate].
  destruct (cached_extract env g (sc_ssp sc) (lru w)) as [lru1 [|cp comps]];
    [discriminate|].
  destruct (reify _ _ c); [|discriminate].
  destruct (can_write env _); [|discriminate].
  simpl. intros [= <-]. eauto.
Qed.

Lemma prefix_app (a b : string) : String.prefix a (a +:+ b) = true.
Proof.
  induction a as [|c a IH]; [by destruct b|].
  change (String.prefix (String c a) (String c (a +:+ b)) = true). simpl.
  destruct (Ascii.ascii_dec c c); [done | congruence].
Qed.

Lemma string_app_assoc (a b c : string) : (a +:+ b) +:+ c = a +:+ (b +:+ c).
Proof.
  induction a as [|x a IH]; [reflexivity|].
  change (String x ((a +:+ b) +:+ c) = String x (a +:+ b +:+ c)). by f_equal.
Qed.

Lemma prefix_app_app (a b c : string) : String.prefix a ((a +:+ b) +:+ c) = true.
Proof. rewrite string_app_assoc. apply prefix_app. Qed.

Lemma scenario_name_prefix sc name :
  scenario_name sc = Some name →
  String.prefix (sc_ssp sc) (name +:+ ".xml") = true.
Proof.
  unfold scenario_name, generate_scenario_name.
  destruct (sc_supply sc); [discriminate|]. intros [= <-].
  apply prefix_app_app.
Qed.

Lemma length_flat_map_const {A B} (f : A → list B) (l : list A) n :
  (∀ x, length (f x) = n) → length (flat_map f l) = length l * n.
Proof.
  intros Hf. induction l as [|x l IH]; [done|].
  simpl. rewrite length_app, Hf, IH. lia.
Qed.

Lemma length_product6 l1 l2 l3 l4 l5 l6 :
  length (product6 l1 l2 l3 l4 l5 l6)
  = length l1 * (length l2 * (length l3 * (length l4 * (length l5 * length l6)))).
Proof.
  unfold product6.
  repeat (apply length_flat_map_const; intros ?). apply length_map.
Qed.

(** Without a filter the combinations are as many as [total_scenarios]
    says. *)
Lemma combinations_count p :
  length (_generate_combinations p None) = total_scenarios p.
Proof.
  unfold _generate_combinations, total_scenarios. rewrite length_product6.
  simpl. lia.
Qed.

Lemma filtered_ssps_intersection p x f s :
  s ∈ filtered_ssps p (Some (x :: f)) ↔ s ∈ ssps p ∧ s ∈ x :: f.
Proof.
  unfold filtered_ssps. rewrite !list_elem_of_In, filter_In.
  unfold in_filter. rewrite existsb_exists. split.
  - intros [Hs (y & Hy & He)]. apply string_eqb_true in He as ->. done.
  - intros [Hs Hf]. split; [done|]. exists s. split; [done|].
    by apply string_eqb_true.
Qed.



Lemma collect_all_succeeded completed :
  all_succeeded completed →
  length (collect_completed completed) = length completed
  ∧ ∀ path, path ∈ collect_completed completed →
            ∃ i, (i, Returned (Some path)) ∈ completed.
Proof.
  induction 1 as [|[i o] completed (p & Hp) _ IH]; simpl in *.
  - split; [done|]. intros path Hin. by apply elem_of_nil in Hin.
  - subst o. simpl. destruct IH as [IH1 IH2]. split; [by rewrite IH1|].
    intros path [->|Hin]%elem_of_cons.
    + exists i. left.
    + destruct (IH2 path Hin) as (j & Hj). exists j. by right.
Qed.

Lemma scenario_file_path env g t sc out path content :
  scenario_file env g t sc out = Some (path, content) →
  ∃ name, scenario_name sc = Some name ∧ path = (out, name +:+ ".xml").
Proof.
  unfold scenario_file. destruct (scenario_name sc) as [name|]; [|discriminate].
  destruct (extract_ssp_components _ _ _); [discriminate|].
  destruct (can_write env _); [|discriminate]. intros [= <- _]. eauto.
Qed.

Lemma length_omap_all {A B} (f : A → option B) (l : list A) :
  (∀ x, x ∈ l → is_Some (f x)) → length (omap f l) = length l.
Proof.
  induction l as [|x l IH]; intros H; [done|].
  change (omap f (x :: l))
    with (match f x with Some y => y :: omap f l | None => omap f l end).
  destruct (H x) as [y ->]; [left|]. simpl. rewrite IH; [done|].
  intros z Hz. apply H. by right.
Qed.

(** C6.  Let the filter leave the single pathway id [p] of the first
    list, and let every scenario succeed: in sequential mode each pipeline
    ends in a file when started from the initial state; in concurrent mode
    the pool reports one success for every submitted call.  Then the
    combinations are the product of [p] with the five other lists in their
    order, [generate_all_configs] returns as many paths as that product has
    elements, and every file name starts with [p].  A filter that is given
    and not empty keeps exactly the ids of the first list that occur in
    it. *)
Theorem single_pathway_batch env g t w out ssp_filter (use_concurrency : bool) p :
  template_is g w t → cache_ok env g w → mkdir_ok env out = true →
  filtered_ssps (parameters g) ssp_filter = [p] →
  let combos := _generate_combinations (parameters g) ssp_filter in
  let submitted := map (fun sc => _generate_single_scenario env g sc out) combos in
  let completed := snd (pool env (Nat.min 8 (length combos)) submitted w) in
  (use_concurrency && (1 <? length combos) = false →
     ∀ sc, sc ∈ combos →
       ∃ path, snd (_generate_single_scenario env g sc out w) = Returned (Some path)) →
  (use_concurrency && (1 <? length combos) = true →
     pool_faithful submitted completed ∧ all_succeeded completed) →
  combos = product6 [p] (rcps (parameters g)) (pr_adoption_rates (parameters g))
             (technology_levels (parameters g)) (supply_capacities (parameters g))
             (allocation_regulations (parameters g))
  ∧ (∀ x f s, ssp_filter = Some (x :: f) →
       (s ∈ filtered_ssps (parameters g) ssp_filter
        ↔ s ∈ ssps (parameters g) ∧ s ∈ x :: f))
  ∧ ∃ w' paths,
      generate_all_configs env g out ssp_filter use_concurrency w = Some (w', paths)
      ∧ length paths
        = length (rcps (parameters g)) * length (pr_adoption_rates (parameters g))
          * length (technology_levels (parameters g))
          * length (supply_capacities (parameters g))
          * length (allocation_regulations (parameters g))
      ∧ Forall (fun path => String.prefix p (path_name path) = true) paths.
Proof.
  intros Ht Hc Hmk Hflt combos submitted completed Hseq Hconc.
  assert (combos = product6 [p] (rcps (parameters g))
                     (pr_adoption_rates (parameters g))
                     (technology_levels (parameters g))
                     (supply_capacities (parameters g))
                     (allocation_regulations (parameters g))) as Hcombos.
  { unfold combos, _generate_combinations. by rewrite Hflt. }
  assert (length combos
          = length (rcps (parameters g)) * length (pr_adoption_rates (parameters g))
            * length (technology_levels (parameters g))
            * length (supply_capacities (parameters g))
            * length (allocation_regulations (parameters g))) as Hlen.
  { rewrite Hcombos, length_product6. simpl. lia. }
  assert (∀ sc, sc ∈ combos → sc_ssp sc = p) as Hssp.
  { intros sc Hsc. rewrite Hcombos in Hsc.
    apply elem_of_product6 in Hsc as (Hsc & _). by apply list_elem_of_singleton in Hsc. }
  split; [exact Hcombos|]. split.
  { intros x f s ->. apply filtered_ssps_intersection. }
  unfold generate_all_configs. rewrite Hmk. fold combos.
  destruct (use_concurrency && (1 <? length combos)) eqn:Hmode.
  - destruct (Hconc eq_refl) as [[Hperm Hrun] Hok].
    apply andb_true_iff in Hmode as [_ Hn%Nat.ltb_lt].
    unfold _generate_concurrent.
    destruct (Nat.eqb_spec (Nat.min 8 (length combos)) 0) as [?|_]; [lia|].
    fold submitted. subst completed.
    destruct (pool env (Nat.min 8 (length combos)) submitted w) as [w' completed].
    cbn [snd] in *.
    destruct (collect_all_succeeded _ Hok) as [Hcl Hcp].
    exists w', (collect_completed completed). split; [done|]. split.
    + rewrite Hcl, <- Hlen, <- (length_map fst completed).
      rewrite (Permutation_length Hperm), length_seq. unfold submitted.
      apply length_map.
    + apply Forall_forall. intros path Hpath.
      destruct (Hcp path Hpath) as (i & Hi).
      rewrite Forall_forall in Hrun.
      destruct (Hrun _ Hi) as (call & wi & Hcall & Hres). cbn [fst snd] in *.
      apply lookup_map_Some in Hcall as (sc & Hsc & ->).
      destruct (single_scenario_path _ _ _ _ _ _ Hres) as (name & Hname & ->).
      rewrite <- (Hssp sc) by (eapply list_elem_of_lookup_2; eauto).
      by apply scenario_name_prefix.
  - destruct (sequential_spec env g t out combos w Ht Hc) as (Hs & _).
    destruct (_generate_sequential env g combos out w) as [w' paths].
    cbn [snd] in Hs. subst paths.
    exists w', (omap (fun sc => fst <$> scenario_file env g t sc out) combos).
    split; [done|]. split.
    + rewrite <- Hlen. apply length_omap_all. intros sc Hsc.
      destruct (Hseq eq_refl sc Hsc) as (path & Hpath).
      destruct (single_scenario_spec env g t sc out w Ht Hc) as (H1 & _).
      rewrite H1 in Hpath. destruct (scenario_name sc); [|discriminate].
      injection Hpath as ->. eauto.
    + apply Forall_forall. intros path Hpath.
      apply list_elem_of_omap in Hpath as (sc & Hsc & Hf).
      destruct (scenario_file env g t sc out) as [[path' content]|] eqn:Hfile;
        [|discriminate].
      injection Hf as <-.
      destruct (scenario_file_path _ _ _ _ _ _ _ Hfile) as (name & Hname & ->).
      rewrite <- (Hssp sc Hsc). by apply scenario_name_prefix.
Qed.


(** ** The small installation at work *)

Lemma demo_ready template :
  new_generator (demo_env template) demo_parameters "./"
  = Some (demo_generator template, demo_world template).
Proof.
  unfold new_generator, _load_template, demo_generator, demo_world. simpl.
  by destruct (alloc_tree template []).
Qed.

Lemma demo_template_is template :
  template_is (demo_generator template) (demo_world template) template
  ∧ cache_ok (demo_env template) (demo_generator template) (demo_world template).
Proof.
  destruct (new_generator_ready _ _ _ _ _ (demo_ready template))
    as ((t & Hl & Ht) & Hc & _).
  split; [|done]. unfold _load_template in Hl. simpl in Hl. by injection Hl as <-.
Qed.

Lemma missing_region_is_skipped_witness :
  let env := demo_env bare_template in
  let g := demo_generator bare_template in
  let w := demo_world bare_template in
  let sc := demo_scenario "SSP1" "Regulatory" in
  find (heap w) (template_root g) "ScenarioComponents" = None
  ∧ snd (_generate_single_scenario env g sc "out" w)
    = Returned (Some ("out", "SSP1_6p0_Tech_L_Reg_PR50.xml"))
  ∧ files (fst (_generate_single_scenario env g sc "out" w))
      !! ("out", "SSP1_6p0_Tech_L_Reg_PR50.xml")
    = Some (tostring env
              (scenario_document bare_template "SSP1_6p0_Tech_L_Reg_PR50" "6p0" "SSP1"))
  ∧ snd (_generate_sequential env g [sc] "out" w)
    = [("out", "SSP1_6p0_Tech_L_Reg_PR50.xml")].
Proof.
  intros env g w sc.
  assert (find (heap w) (template_root g) "ScenarioComponents" = None) as Hfind
    by reflexivity.
  split; [exact Hfind|].
  destruct (demo_template_is bare_template) as [Ht Hc].
  apply (missing_region_is_skipped env g bare_template sc "out" w
           "SSP1_6p0_Tech_L_Reg_PR50" Ht Hc Hfind eq_refl).
  - vm_compute. discriminate.
  - reflexivity.
Defined.

Lemma concurrency_dispatch_witness :
  let env := demo_env demo_template in
  let g := demo_generator demo_template in
  let w := demo_world demo_template in
  let combos := _generate_combinations (parameters g) (Some ["SSP1"]) in
  length combos = 2
  ∧ generate_all_configs env g "out" (Some ["SSP1"]) true w
    = _generate_concurrent env g combos "out" w
  ∧ generate_all_configs env g "out" (Some ["SSP1"]) false w
    = Some (_generate_sequential env g combos "out" w).
Proof.
  intros env g w combos.
  assert (length combos = 2) as Hlen by (vm_compute; reflexivity).
  assert (mkdir_ok env "out" = true) as Hmk by reflexivity.
  split; [exact Hlen|]. split.
  - destruct (concurrency_dispatch env g "out" (Some ["SSP1"]) true w Hmk)
      as [H _].
    refine (proj1 (H eq_refl _)). fold combos. rewrite Hlen. lia.
  - destruct (concurrency_dispatch env g "out" (Some ["SSP1"]) false w Hmk)
      as [_ H].
    exact (proj1 (H (or_introl eq_refl))).
Defined.


Lemma single_pathway_batch_witness :
  let env := demo_env demo_template in
  let g := demo_generator demo_template in
  let w := demo_world demo_template in
  let combos := _generate_combinations (parameters g) (Some ["SSP1"]) in
  let submitted := map (fun sc => _generate_single_scenario env g sc "out") combos in
  let completed := snd (pool env (Nat.min 8 (length combos)) submitted w) in
  filtered_ssps (parameters g) (Some ["SSP1"]) = ["SSP1"]
  ∧ pool_faithful submitted completed ∧ all_succeeded completed
  ∧ (∀ use_concurrency : bool,
       ∃ w' paths,
         generate_all_configs env g "out" (Some ["SSP1"]) use_concurrency w
         = Some (w', paths)
         ∧ length paths
           = length (rcps (parameters g)) * length (pr_adoption_rates (parameters g))
             * length (technology_levels (parameters g))
             * length (supply_capacities (parameters g))
             * length (allocation_regulations (parameters g))
         ∧ Forall (fun path => String.prefix "SSP1" (path_name path) = true) paths).
Proof.
  intros env g w combos submitted completed.
  destruct (demo_template_is demo_template) as [Ht Hc].
  assert (mkdir_ok env "out" = true) as Hmk by reflexivity.
  assert (filtered_ssps (parameters g) (Some ["SSP1"]) = ["SSP1"]) as Hflt
    by reflexivity.
  assert (combos = [demo_scenario "SSP1" "Market-driven";
                    demo_scenario "SSP1" "Regulatory"]) as Hcombos
    by reflexivity.
  assert (completed
          = [(0, Returned (Some ("out", "SSP1_6p0_Tech_L_Mkt_PR50.xml")));
             (1, Returned (Some ("out", "SSP1_6p0_Tech_L_Reg_PR50.xml")))])
    as Hcompleted by (vm_compute; reflexivity).
  assert (pool_faithful submitted completed) as Hpool.
  { rewrite Hcompleted. split.
    - unfold submitted. rewrite length_map, Hcombos. reflexivity.
    - unfold submitted. rewrite Hcombos.
      constructor; [|constructor; [|constructor]].
      + exists (_generate_single_scenario env g (demo_scenario "SSP1" "Market-driven") "out"),
          w.
        split; [reflexivity | vm_compute; reflexivity].
      + exists (_generate_single_scenario env g (demo_scenario "SSP1" "Regulatory") "out"),
          (fst (_generate_single_scenario env g
                  (demo_scenario "SSP1" "Market-driven") "out" w)).
        split; [reflexivity | vm_compute; reflexivity]. }
  assert (all_succeeded completed) as Hok.
  { rewrite Hcompleted. repeat constructor; eexists; reflexivity. }
  split; [exact Hflt|]. split; [exact Hpool|]. split; [exact Hok|].
  intros use_concurrency.
  refine (proj2 (proj2 (single_pathway_batch env g demo_template w "out"
                          (Some ["SSP1"]) use_concurrency "SSP1" Ht Hc Hmk Hflt _ _))).
  - intros _ sc Hsc. fold combos in Hsc. rewrite Hcombos in Hsc.
    apply elem_of_cons in Hsc as [->|Hsc];
      [|apply list_elem_of_singleton in Hsc as ->].
    + exists ("out", "SSP1_6p0_Tech_L_Mkt_PR50.xml"). vm_compute. reflexivity.
    + exists ("out", "SSP1_6p0_Tech_L_Reg_PR50.xml"). vm_compute. reflexivity.
  - intros _. split; [exact Hpool | exact Hok].
Defined.

(** One scenario from end to end: one file, named by the name generator,
    that holds the three patched fields and the entries of the source file
    in their order. *)
Example end_to_end :
  let env := demo_env demo_template in
  let g := Generator
             {| ssps := ["SSP1"]; rcps := ["6p0"]; pr_adoption_rates := [50]%Z;
                technology_levels := ["Advanced"]; supply_capacities := ["Low"];
                allocation_regulations := ["Regulatory"] |}
             (template_root (demo_generator demo_template)) "./" in
  match generate_all_configs env g "out" None true (demo_world demo_template) with
  | Some (w, paths) =>
      paths = [("out", "SSP1_6p0_Tech_L_Reg_PR50.xml")]
      ∧ files w !! ("out", "SSP1_6p0_Tech_L_Reg_PR50.xml")
        = Some ("<Configuration><Files>"
                +:+ "<Value>../output/db_SSP1_6p0_Tech_L_Reg_PR50</>"
                +:+ "<Value>../input/policy/policy_target_6p0_spa1.xml</></>"
                +:+ "<Strings><Value>SSP1_6p0_Tech_L_Reg_PR50</></>"
                +:+ "<ScenarioComponents><Value>../input/climate/magicc.xml</>"
                +:+ "<Value>../input/gcamdata/xml/socioeconomics_SSP1.xml</>"
                +:+ "<!--> SSP1 Socioeconomics </></></>")
  | None => False
  end.
Proof. vm_compute. split; reflexivity. Qed.
